(** * Verification of the tic-tac-toe move engine (src/components/TicTacToe.tsx)

    The game logic of the component (checkWinner, checkDraw, minimax,
    getBestMove, and the two move handlers) is embedded below and the
    properties of the specification are proved about it.

    Modelling conventions:
    - a [Player] is ['X' | 'O' | null]: [option Mark], [None] being [null];
    - a [Board] is a JavaScript array of players: a [list], read with
      [board !! i] where the outer [None] is JavaScript's [undefined];
    - minimax and getBestMove write into the array they are given, so they
      are state-passing: they take the board and return the board they leave;
    - JavaScript numbers that occur as scores range over the integers and the
      two infinities ([Num]);
    - [Math.random()] reads a stream of draws [rng] at a cursor and advances
      the cursor; a draw is a binary64 number ([double]); the product of a
      draw with the list length is the exact product rounded to binary64,
      to nearest with ties to even ([round64]), and [Math.floor] of it is
      exact;
    - the recursion of minimax is bounded by the number of [null] cells; the
      model recurses on a fuel and [Diverge] marks its exhaustion. *)

From Stdlib Require Import ZArith QArith Qround Qpower Lia Lqa Sorted.
From stdpp Require Import base tactics option list strings.

Local Open Scope Z_scope.

(** ** Data model *)

Inductive Mark := X | O.

#[global] Instance Mark_eq_dec : EqDecision Mark.
Proof. solve_decision. Defined.

(** [type Player = 'X' | 'O' | null] *)
Abbreviation Player := (option Mark).
(** [type Board = Player[]] *)
Abbreviation Board := (list Player).

Inductive Difficulty := easy | medium | hard.

Inductive Outcome := InProgress | Win (m : Mark) | Draw.

#[global] Instance Outcome_eq_dec : EqDecision Outcome.
Proof. solve_decision. Defined.

Definition WINNING_COMBINATIONS : list (nat * nat * nat) :=
  [ (0, 1, 2); (3, 4, 5); (6, 7, 8);
    (0, 3, 6); (1, 4, 7); (2, 5, 8);
    (0, 4, 8); (2, 4, 6) ]%nat.

(** ** JavaScript values used by the engine *)

(** Scores: integers, [-Infinity] and [Infinity]. *)
Inductive Num := NegInf | Fin (z : Z) | PosInf.

#[global] Instance Num_eq_dec : EqDecision Num.
Proof. solve_decision. Defined.

Module Num.

(** [a <= b] *)
Definition leb (a b : Num) : bool :=
  match a, b with
  | NegInf, _ => true
  | _, PosInf => true
  | Fin x, Fin y => x <=? y
  | _, _ => false
  end.

(** [a > b] is [ltb b a] *)
Definition ltb (a b : Num) : bool := negb (leb b a).

(** [Math.max(a, b)] *)
Definition max (a b : Num) : Num := if leb a b then b else a.

(** [Math.min(a, b)] *)
Definition min (a b : Num) : Num := if leb a b then a else b.

Definition le (a b : Num) : Prop := leb a b = true.
Definition lt (a b : Num) : Prop := ltb a b = true.

End Num.

(** What getBestMove hands back: a number, or [undefined] when it reads
    past the end of [availableMoves]. *)
Inductive Value := undefined | number (z : Z).

#[global] Instance Value_eq_dec : EqDecision Value.
Proof. solve_decision. Defined.

(** The two error kinds the specification names (its section 7). *)
Inductive Error := ContractViolation | InvalidBoard.

(** How a call ends: it returns, it throws, or the model ran out of fuel.
    No statement of the engine throws, so nothing below builds a [Throw];
    the constructor is what a claim about failing is stated with. *)
Inductive Run (A : Type) :=
  | Return (a : A)
  | Throw (e : Error)
  | Diverge.
Arguments Return {A} a.
Arguments Throw {A} e.
Arguments Diverge {A}.

#[global] Instance Run_ret : MRet Run := @Return.
#[global] Instance Run_bind : MBind Run := fun A B f m =>
  match m with
  | Return a => f a
  | Throw e => Throw e
  | Diverge => Diverge
  end.

Definition throws {A} (r : Run A) : Prop := exists e, r = Throw e.

(** ** Outcome Evaluator *)

(** [v] used as a condition: ['X'] and ['O'] are truthy, [null] and
    [undefined] are not. *)
Definition truthy (v : option Player) : bool :=
  match v with
  | Some (Some _) => true
  | _ => false
  end.

(** [v === w] *)
Definition strict_eq (v w : option Player) : bool := bool_decide (v = w).

(** [v === null] *)
Definition is_null (v : option Player) : bool :=
  match v with
  | Some None => true
  | _ => false
  end.

(** The [for (const combination of ...)] loop of checkWinner, from the
    combinations still to visit. *)
Fixpoint checkWinner_from (combinations : list (nat * nat * nat))
    (board : Board) : Player :=
  match combinations with
  | [] => None
  | (a, b, c) :: rest =>
      if truthy (board !! a)
         && strict_eq (board !! a) (board !! b)
         && strict_eq (board !! a) (board !! c)
      then default None (board !! a)
      else checkWinner_from rest board
  end.

Definition checkWinner (board : Board) : Player :=
  checkWinner_from WINNING_COMBINATIONS board.

Definition checkDraw (board : Board) : bool :=
  forallb (fun cell => negb (is_null (Some cell))) board
  && negb (truthy (Some (checkWinner board))).

(** [evaluate] of the specification: the test both move handlers make on
    the board they have just written (winner first, then draw). *)
Definition evaluate (board : Board) : Outcome :=
  match checkWinner board with
  | Some winner => Win winner
  | None => if checkDraw board then Draw else InProgress
  end.

(** ** Move Selector *)

(** The indices [0 .. 8] visited by [for (let i = 0; i < 9; i++)]. *)
Definition cells : list nat := seq 0 9.

Section loops.
(** The recursive call [minimax(board, depth, isMaximizing, alpha, beta)]. *)
Variable rec : Board -> Z -> bool -> Num -> Num -> Run (Num * Board).

(** The maximizing loop, from the indices still to visit. *)
Fixpoint max_loop (todo : list nat) (board : Board) (depth : Z)
    (bestScore alpha beta : Num) : Run (Num * Board) :=
  match todo with
  | [] => Return (bestScore, board)
  | i :: rest =>
      if is_null (board !! i) then
        let board := <[i := Some O]> board in
        '(score, board) ← rec board (depth + 1) false alpha beta;
        let board := <[i := None]> board in
        let bestScore := Num.max score bestScore in
        let alpha := Num.max alpha score in
        if Num.leb beta alpha then Return (bestScore, board)
        else max_loop rest board depth bestScore alpha beta
      else max_loop rest board depth bestScore alpha beta
  end.

(** The minimizing loop. *)
Fixpoint min_loop (todo : list nat) (board : Board) (depth : Z)
    (bestScore alpha beta : Num) : Run (Num * Board) :=
  match todo with
  | [] => Return (bestScore, board)
  | i :: rest =>
      if is_null (board !! i) then
        let board := <[i := Some X]> board in
        '(score, board) ← rec board (depth + 1) true alpha beta;
        let board := <[i := None]> board in
        let bestScore := Num.min score bestScore in
        let beta := Num.min beta score in
        if Num.leb beta alpha then Return (bestScore, board)
        else min_loop rest board depth bestScore alpha beta
      else min_loop rest board depth bestScore alpha beta
  end.
End loops.

Fixpoint minimax_fuel (fuel : nat) (board : Board) (depth : Z)
    (isMaximizing : bool) (alpha beta : Num) : Run (Num * Board) :=
  match fuel with
  | 0%nat => Diverge
  | S fuel =>
      let winner := checkWinner board in
      if bool_decide (winner = Some O) then Return (Fin (10 - depth), board)
      else if bool_decide (winner = Some X) then Return (Fin (depth - 10), board)
      else if checkDraw board then Return (Fin 0, board)
      else if isMaximizing then
        max_loop (minimax_fuel fuel) cells board depth NegInf alpha beta
      else
        min_loop (minimax_fuel fuel) cells board depth PosInf alpha beta
  end.

(** A call nests at most once per [null] cell among the nine it visits. *)
Definition minimax : Board -> Z -> bool -> Num -> Num -> Run (Num * Board) :=
  minimax_fuel 10.

(** [board.map((cell, index) => cell === null ? index : null)
         .filter(val => val !== null)] *)
Definition availableMoves (board : Board) : list nat :=
  omap id (imap (fun index cell =>
                   if is_null (Some cell) then Some index else None) board).

(** *** Binary64 numbers

    The draws of [Math.random()] and their product with a length are
    doubles. Their values are rationals; an operation on doubles is the
    exact operation followed by rounding. *)

(** [2^e], for any integer [e]. *)
Definition pow2 (e : Z) : Q := (2 ^ e)%Q.

(** A finite double is [m * 2^e] with [|m| < 2^53] and
    [-1074 <= e <= 971]. *)
Definition is_binary64 (m e : Z) : bool :=
  (Z.abs m <? 2 ^ 53) && (-1074 <=? e) && (e <=? 971).

Record double := Double {
  mantissa : Z;
  exponent : Z;
  double_wf : is_binary64 mantissa exponent = true
}.

Definition value (d : double) : Q :=
  (inject_Z (mantissa d) * pow2 (exponent d))%Q.
Coercion value : double >-> Q.

(** The integer nearest to [y], the even one of the two when [y] is half
    way. *)
Definition rne (y : Q) : Z :=
  let f := Qfloor y in
  match (y - inject_Z f ?= 1 # 2)%Q with
  | Lt => f
  | Gt => f + 1
  | Eq => if Z.even f then f else f + 1
  end.

(** The binary exponent of a positive rational: the greatest [k] with
    [2^k <= x]. *)
Definition ilog2 (x : Q) : Z :=
  let k := Z.log2 (Qnum x) - Z.log2 (Zpos (Qden x)) in
  if Qle_bool (pow2 k) x then k else k - 1.

(** A positive [x] rounded to binary64: to 53 significant bits, or to a
    multiple of [2^-1074] in the subnormal range. *)
Definition round64_pos (x : Q) : Q :=
  let e := Z.max (ilog2 x - 52) (-1074) in
  (inject_Z (rne (x / pow2 e)) * pow2 e)%Q.

(** [x] rounded to binary64, to nearest, ties to even. (Rounding to
    [Infinity] starts near [2^1024]; the products below are smaller than the
    length of an array.) *)
Definition round64 (x : Q) : Q :=
  match (x ?= 0)%Q with
  | Eq => 0%Q
  | Gt => round64_pos x
  | Lt => (- round64_pos (- x))%Q
  end.

(** [Math.random()]: the draw under the cursor, and the cursor advanced. *)
Definition Math_random (rng : nat -> double) (cursor : nat) : double * nat :=
  (rng cursor, S cursor).

(** [moves[Math.floor(r * moves.length)]] *)
Definition random_pick (moves : list nat) (r : double) : Value :=
  let k := Qfloor (round64 (r * inject_Z (Z.of_nat (length moves)))) in
  if k <? 0 then undefined
  else match moves !! Z.to_nat k with
       | Some i => number (Z.of_nat i)
       | None => undefined
       end.

(** The top-level loop of getBestMove, from the indices still to visit. *)
Fixpoint best_loop (todo : list nat) (board : Board)
    (bestMove : Z) (bestScore : Num) : Run (Z * Board) :=
  match todo with
  | [] => Return (bestMove, board)
  | i :: rest =>
      if is_null (board !! i) then
        let board := <[i := Some O]> board in
        '(score, board) ← minimax board 0 false NegInf PosInf;
        let board := <[i := None]> board in
        if Num.ltb bestScore score
        then best_loop rest board (Z.of_nat i) score
        else best_loop rest board bestMove bestScore
      else best_loop rest board bestMove bestScore
  end.

(** The doubles that the literals [0.7] and [0.3] denote. *)
Definition double_0_7 : Q := 3152519739159347 # 4503599627370496.
Definition double_0_3 : Q := 5404319552844595 # 18014398509481984.

(** The search below the difficulty gates. *)
Definition best_search (board : Board) : Run (Z * Board) :=
  best_loop cells board (-1) NegInf.

(** The part of getBestMove below the gates, which draws nothing. *)
Definition search_move (board : Board) (cursor : nat)
    : Run (Value * Board * nat) :=
  '(bestMove, board) ← best_search board;
  Return (number bestMove, board, cursor).

(** getBestMove returns the move, the board as it leaves it, and the
    cursor of the random stream. *)
Definition getBestMove (rng : nat -> double) (board : Board)
    (difficulty : Difficulty) (cursor : nat) : Run (Value * Board * nat) :=
  let moves := availableMoves board in
  let search := search_move board in
  match difficulty with
  | easy =>
      let '(gate, cursor) := Math_random rng cursor in
      if Qlt_le_dec gate double_0_7 then
        let '(r, cursor) := Math_random rng cursor in
        Return (random_pick moves r, board, cursor)
      else search cursor
  | medium =>
      let '(gate, cursor) := Math_random rng cursor in
      if Qlt_le_dec gate double_0_3 then
        let '(r, cursor) := Math_random rng cursor in
        Return (random_pick moves r, board, cursor)
      else search cursor
  | hard => search cursor
  end.

(** ** The game around the engine

    handleCellPress writes the human's mark ['X'] into a copy of the board;
    makeAiMove asks getBestMove (on a copy of the board) for a move and
    writes ['O'] there. Both then test the new board for a winner and a
    draw; once either holds ([gameWon]) no further move is accepted. *)

(** [newBoard[index] = currentPlayer] in handleCellPress, for a cell the
    handler accepts ([board[index]] falsy, [index] one of the nine cells). *)
Definition human_move (board : Board) (index : nat) : Board :=
  <[index := Some X]> board.

(** [newBoard[aiMove] = 'O'] in makeAiMove. Writing at [-1] or at
    [undefined] sets a property of the array object and leaves its cells as
    they are. *)
Definition ai_write (board : Board) (aiMove : Value) : Board :=
  match aiMove with
  | number z => if 0 <=? z then <[Z.to_nat z := Some O]> board else board
  | undefined => board
  end.

(** The boards of a game against the engine at difficulty [hard], with the
    player who moves next. *)
Inductive position (rng : nat -> double) : Mark -> Board -> Prop :=
  | position_start :
      position rng X (replicate 9 None)
  | position_human board index :
      position rng X board ->
      evaluate board = InProgress ->
      board !! index = Some None ->
      position rng O (human_move board index)
  | position_ai board cursor aiMove board' cursor' :
      position rng O board ->
      evaluate board = InProgress ->
      getBestMove rng board hard cursor = Return (aiMove, board', cursor') ->
      position rng X (ai_write board aiMove).

(** Decision procedure: no play from [board] (with [turn] to move) against
    the engine reaches a win of ['X'] within [n] further moves, and every
    such play has ended by then. *)
Fixpoint safe (n : nat) (turn : Mark) (board : Board) : bool :=
  match evaluate board with
  | Win X => false
  | Win O | Draw => true
  | InProgress =>
      match n with
      | 0%nat => false
      | S n =>
          match turn with
          | X => forallb (fun i => if is_null (board !! i)
                                   then safe n O (human_move board i)
                                   else true) cells
          | O => match best_search board with
                 | Return (aiMove, _) => safe n X (ai_write board (number aiMove))
                 | _ => false
                 end
          end
      end
  end.

(** ** Reference definitions, following the words of the specification *)

(** A WinLine is completed by mark [m] when its three cells all hold [m]. *)
Definition completes (board : Board) (line : nat * nat * nat) (m : Mark) : Prop :=
  let '(a, b, c) := line in
  board !! a = Some (Some m) /\ board !! b = Some (Some m)
  /\ board !! c = Some (Some m).

Definition no_line (board : Board) : Prop :=
  forall line m, line ∈ WINNING_COMBINATIONS -> ~ completes board line m.

(** Exhaustive minimax without pruning: the same terminal scores, every
    [null] cell tried, the maximum (for ['O']) or the minimum (for ['X']) of
    the scores of all of them. It works on board values. *)
Section exhaustive_loops.
Variable rec : Board -> Z -> bool -> Run Num.

Fixpoint max_all (todo : list nat) (board : Board) (depth : Z)
    (bestScore : Num) : Run Num :=
  match todo with
  | [] => Return bestScore
  | i :: rest =>
      if is_null (board !! i) then
        score ← rec (<[i := Some O]> board) (depth + 1) false;
        max_all rest board depth (Num.max score bestScore)
      else max_all rest board depth bestScore
  end.

Fixpoint min_all (todo : list nat) (board : Board) (depth : Z)
    (bestScore : Num) : Run Num :=
  match todo with
  | [] => Return bestScore
  | i :: rest =>
      if is_null (board !! i) then
        score ← rec (<[i := Some X]> board) (depth + 1) true;
        min_all rest board depth (Num.min score bestScore)
      else min_all rest board depth bestScore
  end.
End exhaustive_loops.

Fixpoint exhaustive_fuel (fuel : nat) (board : Board) (depth : Z)
    (isMaximizing : bool) : Run Num :=
  match fuel with
  | 0%nat => Diverge
  | S fuel =>
      match evaluate board with
      | Win O => Return (Fin (10 - depth))
      | Win X => Return (Fin (depth - 10))
      | Draw => Return (Fin 0)
      | InProgress =>
          if isMaximizing
          then max_all (exhaustive_fuel fuel) cells board depth NegInf
          else min_all (exhaustive_fuel fuel) cells board depth PosInf
      end
  end.

Definition exhaustive : Board -> Z -> bool -> Run Num := exhaustive_fuel 10.

(** The top-level choice made with the exhaustive scores: the first cell
    whose score is strictly greatest. *)
Fixpoint exhaustive_best_loop (todo : list nat) (board : Board)
    (bestMove : Z) (bestScore : Num) : Run Z :=
  match todo with
  | [] => Return bestMove
  | i :: rest =>
      if is_null (board !! i) then
        score ← exhaustive (<[i := Some O]> board) 0 false;
        if Num.ltb bestScore score
        then exhaustive_best_loop rest board (Z.of_nat i) score
        else exhaustive_best_loop rest board bestMove bestScore
      else exhaustive_best_loop rest board bestMove bestScore
  end.

Definition exhaustive_best_move (board : Board) : Run Z :=
  exhaustive_best_loop cells board (-1) NegInf.

(** The number of [null] cells among the nine the loops visit: the bound
    on the nesting of minimax. *)
Definition nulls (todo : list nat) (board : Board) : nat :=
  length (filter (fun i => board !! i = Some None) todo).

(** The board of the specification's example. *)
Definition example_board : Board :=
  [Some X; Some X; None; Some O; Some O; None; None; None; None].

(** The doubles 0, 1/2 and the double nearest to 1/3; streams of draws. *)
Definition double_zero : double := Double 0 0 eq_refl.
Definition double_half : double := Double 1 (-1) eq_refl.
Definition double_third : double := Double 6004799503160661 (-54) eq_refl.

Definition rng0 : nat -> double := fun _ => double_zero.
Definition rng_half : nat -> double := fun _ => double_half.

(** A board without an Empty cell (a draw), and one with a single one. *)
Definition full_board : Board :=
  [Some X; Some O; Some X; Some X; Some O; Some O; Some O; Some X; Some X].

Definition single_board : Board :=
  [Some X; Some O; Some X; Some X; Some O; Some O; Some O; Some X; None].

(** A score that is a number, not one of the infinities. *)
Definition finite (r : Num) : Prop := exists z, r = Fin z.

(** The scores as an ordered type. *)
Module NumOrder.
Definition t := Num.
Definition eq : t -> t -> Prop := Logic.eq.
Definition lt : t -> t -> Prop := Num.lt.
Definition le : t -> t -> Prop := Num.le.
End NumOrder.

(** What a search with window [(alpha, beta)] tells about the exact value
    [v]: its result [r] is exact inside the window, an upper bound of [v] at
    or below [alpha], a lower bound of [v] at or above [beta]. *)
Definition window (alpha beta v r : Num) : Prop :=
  (Num.le r alpha -> Num.le v r)
  /\ (Num.le beta r -> Num.le r v)
  /\ (Num.lt alpha r -> Num.lt r beta -> r = v).

(** ** Notions used to state further properties of the engine *)

(** A number between [lo] and [hi]. *)
Definition in_range (lo hi : Z) (r : Num) : Prop :=
  exists z, r = Fin z /\ lo <= z <= hi.

(** The scores of the terminal boards at [depth] or deeper, as long as the
    depth is at most 10: between [depth - 10] and [10 - depth]. *)
Definition score_range (depth : Z) (r : Num) : Prop :=
  in_range (depth - 10) (10 - depth) r.

(** Cell [i] is Empty and writing [p] there completes a line that
    checkWinner reports for [p]. *)
Definition wins_at (board : Board) (p : Mark) (i : nat) : Prop :=
  board !! i = Some None /\ checkWinner (<[i := Some p]> board) = Some p.

(** The score getBestMove computes for the Empty cell [i]. *)
Definition scores (board : Board) (i : nat) (s : Num) : Prop :=
  minimax (<[i := Some O]> board) 0 false NegInf PosInf
    = Return (s, <[i := Some O]> board).

(** The number of cells holding mark [p]. *)
Definition count_mark (p : Mark) (board : Board) : nat :=
  length (filter (fun cell => cell = Some p) board).

(** A board on which MarkA threatens cell 2 and MarkB threatens nothing. *)
Definition threat_board : Board :=
  [Some X; Some X; None; None; Some O; None; None; None; None].

(** ** The component: its state and its handlers (TicTacToe.tsx)

    A handler reads the state variables of the render it was created in
    and sets some of them to new values; the state after the handler is the
    state before it with those variables replaced. [Alert.alert('Game
    Over', message)] is modelled by returning the message. *)

Module Game.

Inductive GameMode := pvp | pva.

#[global] Instance GameMode_eq_dec : EqDecision GameMode.
Proof. solve_decision. Defined.

(** The [useState] cells of the component. *)
Record State := mkState {
  board : Board;
  currentPlayer : Mark;
  gameWon : bool;
  winner : Player;
  gameMode : GameMode;
  difficulty : Difficulty;
  isAiThinking : bool
}.

Definition setBoard (v : Board) (s : State) : State :=
  mkState v (currentPlayer s) (gameWon s) (winner s) (gameMode s)
    (difficulty s) (isAiThinking s).
Definition setCurrentPlayer (v : Mark) (s : State) : State :=
  mkState (board s) v (gameWon s) (winner s) (gameMode s)
    (difficulty s) (isAiThinking s).
Definition setGameWon (v : bool) (s : State) : State :=
  mkState (board s) (currentPlayer s) v (winner s) (gameMode s)
    (difficulty s) (isAiThinking s).
Definition setWinner (v : Player) (s : State) : State :=
  mkState (board s) (currentPlayer s) (gameWon s) v (gameMode s)
    (difficulty s) (isAiThinking s).
Definition setGameMode (v : GameMode) (s : State) : State :=
  mkState (board s) (currentPlayer s) (gameWon s) (winner s) v
    (difficulty s) (isAiThinking s).
Definition setDifficulty (v : Difficulty) (s : State) : State :=
  mkState (board s) (currentPlayer s) (gameWon s) (winner s) (gameMode s)
    v (isAiThinking s).
Definition setIsAiThinking (v : bool) (s : State) : State :=
  mkState (board s) (currentPlayer s) (gameWon s) (winner s) (gameMode s)
    (difficulty s) v.

(** The initial values of the [useState] cells. *)
Definition initial : State :=
  mkState (replicate 9 None) X false None pva medium false.

(** ['X'] or ['O'] as it is spliced into a message. *)
Definition mark_text (m : Mark) : string :=
  match m with X => "X" | O => "O" end.

(** What handleCellPress and the callback of makeAiMove do once the new
    board is set, [on_win] giving the message for a winner. *)
Definition conclude (newBoard : Board) (on_win : Mark -> string)
    (next : Mark) (s : State) : State * option string :=
  match checkWinner newBoard with
  | Some w => (setGameWon true (setWinner (Some w) s), Some (on_win w))
  | None =>
      if checkDraw newBoard
      then (setGameWon true s, Some "It's a draw!")
      else (setCurrentPlayer next s, None)
  end.

(** handleCellPress, called by renderCell with an [index] among 0..8 on a
    board of nine cells, so that the write is inside the array. *)
Definition handleCellPress (s : State) (index : nat) : State * option string :=
  if truthy (board s !! index) || gameWon s || isAiThinking s then (s, None)
  else if bool_decide (gameMode s = pva) && bool_decide (currentPlayer s = O)
  then (s, None)
  else
    let newBoard := <[index := Some (currentPlayer s)]> (board s) in
    conclude newBoard
      (fun w => match gameMode s with
                | pva => match w with X => "You win!" | O => "AI wins!" end
                | pvp => "Player " +:+ mark_text w +:+ " wins!"
                end)
      (match currentPlayer s with X => O | O => X end)
      (setBoard newBoard s).

(** The synchronous part of makeAiMove: the flag is raised and the timer
    is started. *)
Definition makeAiMove (s : State) : State := setIsAiThinking true s.

(** The callback of the timer of [makeAiMove(currentBoard)], created in a
    render with this [difficulty], run on the state [s]. *)
Definition makeAiMove_timeout (rng : nat -> double) (currentBoard : Board)
    (difficulty : Difficulty) (s : State) (cursor : nat)
    : Run (State * option string * nat) :=
  '(aiMove, _, cursor) ← getBestMove rng currentBoard difficulty cursor;
  let newBoard := ai_write currentBoard aiMove in
  let '(s, alert) :=
    conclude newBoard
      (fun w => match w with O => "AI wins!" | X => "You win!" end)
      X (setBoard newBoard s) in
  Return (setIsAiThinking false s, alert, cursor).

(** The condition of the effect that calls [makeAiMove(board)]. *)
Definition aiTurn (s : State) : bool :=
  bool_decide (gameMode s = pva) && bool_decide (currentPlayer s = O)
  && negb (gameWon s) && negb (isAiThinking s).

Definition resetGame (s : State) : State :=
  setIsAiThinking false
    (setWinner None
       (setGameWon false
          (setCurrentPlayer X (setBoard (replicate 9 None) s)))).

(** The states of the runs in which nothing is pressed while an AI move is
    due or its timer is pending: the user's events arrive in states where
    the effect does not fire, and the effect and the callback of its timer
    act on the same board, as one step. *)
Inductive reachable (rng : nat -> double) : State -> Prop :=
  | reach_initial : reachable rng initial
  | reach_press s index :
      reachable rng s -> aiTurn s = false -> (index < 9)%nat ->
      reachable rng (handleCellPress s index).1
  | reach_reset s :
      reachable rng s -> aiTurn s = false -> reachable rng (resetGame s)
  | reach_mode s mode :
      reachable rng s -> aiTurn s = false ->
      reachable rng (resetGame (setGameMode mode s))
  | reach_difficulty s diff :
      reachable rng s -> aiTurn s = false ->
      reachable rng (resetGame (setDifficulty diff s))
  | reach_ai s cursor s' alert cursor' :
      reachable rng s -> aiTurn s = true ->
      makeAiMove_timeout rng (board s) (difficulty s) (makeAiMove s) cursor
        = Return (s', alert, cursor') ->
      reachable rng s'.

End Game.

(** ** The two-player component (the source file without the AI) *)

Module TwoPlayer.

Record State := mkState {
  board : Board;
  currentPlayer : Mark;
  gameWon : bool;
  winner : Player
}.

Definition handleCellPress (s : State) (index : nat) : State * option string :=
  if truthy (board s !! index) || gameWon s then (s, None)
  else
    let newBoard := <[index := Some (currentPlayer s)]> (board s) in
    match checkWinner newBoard with
    | Some w =>
        (mkState newBoard (currentPlayer s) true (Some w),
         Some ("Player " +:+ Game.mark_text w +:+ " wins!"))
    | None =>
        if checkDraw newBoard
        then (mkState newBoard (currentPlayer s) true (winner s),
              Some "It's a draw!")
        else (mkState newBoard
                (match currentPlayer s with X => O | O => X end)
                (gameWon s) (winner s), None)
    end.

Definition resetGame (s : State) : State :=
  mkState (replicate 9 None) X false None.

(** The part of the state of the AI component that this component has. *)
Definition of_game (s : Game.State) : State :=
  mkState (Game.board s) (Game.currentPlayer s) (Game.gameWon s)
    (Game.winner s).

Definition initial : State := mkState (replicate 9 None) X false None.

(** The states of the component: cells are pressed, the game is reset. *)
Inductive reachable : State -> Prop :=
  | reach_initial : reachable initial
  | reach_press s index :
      reachable s -> (index < 9)%nat -> reachable (handleCellPress s index).1
  | reach_reset s :
      reachable s -> reachable (resetGame s).

End TwoPlayer.

(** The other player. *)
Definition other (p : Mark) : Mark := match p with X => O | O => X end.

(** What the state variables say about each other: the board has nine
    cells; [winner] is what checkWinner finds; [gameWon] is raised exactly
    on a finished board; while the game runs ['X'] has as many marks as
    ['O'] when it is to move and one more when ['O'] is, and at any time one
    of the two; every completed line is the winner's. *)
Definition consistent (board : Board) (currentPlayer : Mark) (gameWon : bool)
    (winner : Player) : Prop :=
  length board = 9%nat
  /\ winner = checkWinner board
  /\ (gameWon = true <-> evaluate board <> InProgress)
  /\ (gameWon = false ->
      count_mark X board
      = (count_mark O board + if decide (currentPlayer = O) then 1 else 0)%nat)
  /\ (count_mark X board = count_mark O board
      \/ count_mark X board = S (count_mark O board))
  /\ (forall line m, line ∈ WINNING_COMBINATIONS -> completes board line m ->
                     winner = Some m).

(** [consistent] of the state variables of the AI component. *)
Definition state_consistent (s : Game.State) : Prop :=
  consistent (Game.board s) (Game.currentPlayer s) (Game.gameWon s)
    (Game.winner s).

(** A state of the two-player component as one of the AI component in
    two-player mode. *)
Definition to_game (s : TwoPlayer.State) : Game.State :=
  Game.mkState (TwoPlayer.board s) (TwoPlayer.currentPlayer s)
    (TwoPlayer.gameWon s) (TwoPlayer.winner s) Game.pvp medium false.

(** A state in which a press on cell 2 wins for ['X'], and a won state. *)
Definition winning_state : Game.State :=
  Game.mkState [Some X; Some X; None; Some O; Some O; None; None; None; None]
    X false None Game.pva hard false.

Definition won_state : Game.State :=
  Game.mkState [Some X; Some X; Some X; Some O; Some O; None; None; None; None]
    X true (Some X) Game.pvp medium false.

(** * Properties *)

(** ** The Outcome Evaluator *)

Lemma line_test_true (board : Board) a b c :
  truthy (board !! a) && strict_eq (board !! a) (board !! b)
    && strict_eq (board !! a) (board !! c) = true
  <-> exists m, completes board (a, b, c) m.
Proof.
  unfold strict_eq, completes. split.
  - intros H. apply andb_prop in H as [H Hc]. apply andb_prop in H as [Ht Hb].
    apply bool_decide_eq_true in Hb, Hc.
    destruct (board !! a) as [[m|]|] eqn:Ha; try discriminate.
    exists m. by rewrite <- Hb, <- Hc.
  - intros (m & Ha & Hb & Hc). rewrite Ha, Hb, Hc. simpl.
    by rewrite bool_decide_eq_true_2.
Qed.

Lemma completes_functional (board : Board) line m m' :
  completes board line m -> completes board line m' -> m = m'.
Proof.
  destruct line as [[a b] c]. intros (Ha & _) (Ha' & _). congruence.
Qed.

Lemma checkWinner_from_first (board : Board) pre line post m :
  completes board line m ->
  (forall l m', l ∈ pre -> ~ completes board l m') ->
  checkWinner_from (pre ++ line :: post) board = Some m.
Proof.
  intros Hl. induction pre as [|[[a b] c] pre IH]; intros Hpre; simpl.
  - destruct line as [[a b] c].
    rewrite (proj2 (line_test_true board a b c)) by eauto.
    destruct Hl as (-> & _). done.
  - destruct (truthy _ && _ && _) eqn:E.
    + apply line_test_true in E as [m' Hm'].
      exfalso. eapply Hpre; [|exact Hm']. left.
    + apply IH. intros l m' Hin. apply Hpre. by right.
Qed.

Lemma checkWinner_from_None (board : Board) combinations :
  (forall l m, l ∈ combinations -> ~ completes board l m) ->
  checkWinner_from combinations board = None.
Proof.
  induction combinations as [|[[a b] c] rest IH]; intros H; simpl; [done|].
  destruct (truthy _ && _ && _) eqn:E.
  - apply line_test_true in E as [m Hm]. exfalso. eapply H; [|exact Hm]. left.
  - apply IH. intros l m Hin. apply H. by right.
Qed.

Lemma checkWinner_from_Some (board : Board) combinations m :
  checkWinner_from combinations board = Some m ->
  exists line, line ∈ combinations /\ completes board line m.
Proof.
  induction combinations as [|[[a b] c] rest IH]; simpl; [done|].
  destruct (truthy _ && _ && _) eqn:E.
  - apply line_test_true in E as [m' Hm']. intros Hd.
    exists (a, b, c). split; [left|].
    destruct Hm' as (Ha & Hb & Hc). rewrite Ha in Hd. simpl in Hd.
    injection Hd as <-. done.
  - intros H. destruct (IH H) as (l & Hin & Hl). exists l. split; [by right|done].
Qed.

Lemma forallb_not_null (board : Board) :
  forallb (fun cell => negb (is_null (Some cell))) board = true
  <-> Forall (fun cell => cell <> None) board.
Proof.
  rewrite forallb_forall, Forall_forall. split; intros H cell Hin.
  - apply list_elem_of_In in Hin. specialize (H _ Hin). by destruct cell.
  - apply list_elem_of_In in Hin. specialize (H _ Hin). by destruct cell.
Qed.

(** On a concrete board: none of the listed lines is completed. *)
Ltac refute_lines :=
  let l := fresh "l" in
  let m := fresh "m" in
  let Hin := fresh "Hin" in
  let Hc := fresh "Hc" in
  intros l m Hin Hc;
  repeat (apply elem_of_cons in Hin as [-> | Hin]);
  [ destruct m, Hc as (? & ? & ?); discriminate .. | by apply elem_of_nil in Hin ].

(** C3: for every board, [evaluate] (checkWinner, then checkDraw) returns
    [Win m] when some WinLine holds the same mark [m] in its three cells,
    the first such line in the fixed order deciding [m]; it returns [Draw]
    when no WinLine is completed and every cell is non-Empty; and it returns
    [InProgress] otherwise (no WinLine completed, some cell Empty). *)
Theorem evaluate_spec (board : Board) :
  (forall pre line post m,
      WINNING_COMBINATIONS = pre ++ line :: post ->
      completes board line m ->
      (forall l m', l ∈ pre -> ~ completes board l m') ->
      evaluate board = Win m)
  /\ (no_line board -> Forall (fun cell => cell <> None) board ->
      evaluate board = Draw)
  /\ (no_line board -> ~ Forall (fun cell => cell <> None) board ->
      evaluate board = InProgress).
Proof.
  unfold evaluate, checkDraw, checkWinner. split; [|split].
  - intros pre line post m -> Hl Hpre.
    by rewrite (checkWinner_from_first board pre line post m).
  - intros Hno Hfull. rewrite checkWinner_from_None by (intros; by apply Hno).
    by rewrite (proj2 (forallb_not_null board) Hfull).
  - intros Hno Hfull. rewrite checkWinner_from_None by (intros; by apply Hno).
    destruct (forallb _ board) eqn:E; [|done].
    by apply forallb_not_null in E.
Qed.

(** The three clauses of [evaluate_spec] at boards of the three kinds. *)
Lemma evaluate_spec_witness :
  evaluate [Some O; Some X; None; Some O; Some X; None; Some O; None; Some X]
    = Win O
  /\ evaluate [Some X; Some O; Some X; Some X; Some O; Some O; Some O; Some X;
               Some X] = Draw
  /\ evaluate example_board = InProgress.
Proof.
  split; [|split].
  - apply (proj1 (evaluate_spec _)
             [(0, 1, 2); (3, 4, 5); (6, 7, 8)]%nat (0, 3, 6)%nat
             [(1, 4, 7); (2, 5, 8); (0, 4, 8); (2, 4, 6)]%nat O).
    + reflexivity.
    + by vm_compute.
    + refute_lines.
  - apply (proj1 (proj2 (evaluate_spec _))).
    + unfold no_line, WINNING_COMBINATIONS. refute_lines.
    + repeat constructor; discriminate.
  - apply (proj2 (proj2 (evaluate_spec _))).
    + unfold no_line, WINNING_COMBINATIONS. refute_lines.
    + intros H. apply Forall_forall with (x := None) in H; [done|].
      apply list_elem_of_lookup. by exists 2%nat.
Defined.

(** ** Arithmetic of scores *)

Ltac num_solve :=
  unfold Num.le, Num.lt, Num.ltb, Num.max, Num.min, Num.leb in *;
  repeat match goal with x : Num |- _ => destruct x end;
  simpl in *;
  repeat match goal with
         | |- context [?x <=? ?y] => destruct (Z.leb_spec x y)
         | H : context [?x <=? ?y] |- _ => destruct (Z.leb_spec x y)
         end;
  simpl in *; try done; try (f_equal; lia); try lia.

(** ** Cells, and the measure of the recursion *)

Lemma elem_of_cells i : i ∈ cells <-> (i < 9)%nat.
Proof. unfold cells. rewrite elem_of_seq. lia. Qed.

Lemma NoDup_cells : NoDup cells.
Proof. apply NoDup_seq. Qed.

Lemma is_null_true (v : option Player) : is_null v = true <-> v = Some None.
Proof. destruct v as [[?|]|]; simpl; split; congruence. Qed.

Lemma restore_cell (board : Board) i m :
  board !! i = Some None -> <[i := None]> (<[i := Some m]> board) = board.
Proof. intros H. rewrite list_insert_insert_eq. by apply list_insert_id. Qed.

Lemma nulls_insert_notin todo (board : Board) i v :
  i ∉ todo -> nulls todo (<[i := v]> board) = nulls todo board.
Proof.
  unfold nulls. induction todo as [|j todo IH]; intros Hi; [done|].
  apply not_elem_of_cons in Hi as [Hne Hi].
  rewrite !filter_cons, list_lookup_insert_ne by done.
  case_decide; simpl; rewrite IH; done.
Qed.

Lemma nulls_insert todo (board : Board) i m :
  NoDup todo -> i ∈ todo -> board !! i = Some None ->
  S (nulls todo (<[i := Some m]> board)) = nulls todo board.
Proof.
  intros Hnd Hin Hi. induction todo as [|j todo IH]; [by apply elem_of_nil in Hin|].
  apply NoDup_cons in Hnd as [Hj Hnd].
  destruct (decide (i = j)) as [<-|Hne].
  - pose proof (nulls_insert_notin todo board i (Some m) Hj) as E.
    unfold nulls in *. rewrite !filter_cons.
    rewrite list_lookup_insert_eq by (by eapply lookup_lt_Some).
    rewrite decide_False by done. rewrite decide_True by done.
    simpl. by rewrite E.
  - apply elem_of_cons in Hin as [->|Hin]; [done|].
    specialize (IH Hnd Hin). unfold nulls in *.
    rewrite !filter_cons, list_lookup_insert_ne by done.
    case_decide; simpl; lia.
Qed.

Lemma nulls_cells_le (board : Board) : (nulls cells board <= 9)%nat.
Proof.
  unfold nulls. etrans; [apply length_filter|]. done.
Qed.

(** ** The loops, by invariant *)

Section loop_rules.
Variable rec : Board -> Z -> bool -> Num -> Num -> Run (Num * Board).
Variables (board : Board) (depth : Z).

(** A rule for the maximizing loop: [Inv todo bestScore alpha] holds
    whenever the loop is about to visit [todo]; each recursive call
    returns, leaving the board it was given; [Post] holds of the result,
    at the end of the loop or at a break. *)
Lemma max_loop_rule (Inv : list nat -> Num -> Num -> Prop) (Post : Num -> Prop)
    (beta : Num) :
  (forall best a, Inv [] best a -> Post best) ->
  (forall i rest best a,
      Inv (i :: rest) best a -> is_null (board !! i) = false ->
      Inv rest best a) ->
  (forall i rest best a,
      Inv (i :: rest) best a -> board !! i = Some None ->
      exists score,
        rec (<[i := Some O]> board) (depth + 1) false a beta
          = Return (score, <[i := Some O]> board)
        /\ if Num.leb beta (Num.max a score)
           then Post (Num.max score best)
           else Inv rest (Num.max score best) (Num.max a score)) ->
  forall todo best a,
    Inv todo best a ->
    exists r, max_loop rec todo board depth best a beta = Return (r, board)
              /\ Post r.
Proof.
  intros Hend Hskip Hstep. induction todo as [|i rest IH]; intros best a HI.
  - exists best. split; [done|]. by apply (Hend best a).
  - simpl. destruct (is_null (board !! i)) eqn:E.
    + apply is_null_true in E.
      destruct (Hstep i rest best a HI E) as (score & -> & Hs). simpl.
      rewrite (restore_cell board i O E).
      destruct (Num.leb beta (Num.max a score)); [by eexists|].
      by apply IH.
    + apply IH. by eapply Hskip.
Qed.

(** The same rule for the minimizing loop: [Inv todo bestScore beta]. *)
Lemma min_loop_rule (Inv : list nat -> Num -> Num -> Prop) (Post : Num -> Prop)
    (alpha : Num) :
  (forall best b, Inv [] best b -> Post best) ->
  (forall i rest best b,
      Inv (i :: rest) best b -> is_null (board !! i) = false ->
      Inv rest best b) ->
  (forall i rest best b,
      Inv (i :: rest) best b -> board !! i = Some None ->
      exists score,
        rec (<[i := Some X]> board) (depth + 1) true alpha b
          = Return (score, <[i := Some X]> board)
        /\ if Num.leb (Num.min b score) alpha
           then Post (Num.min score best)
           else Inv rest (Num.min score best) (Num.min b score)) ->
  forall todo best b,
    Inv todo best b ->
    exists r, min_loop rec todo board depth best alpha b = Return (r, board)
              /\ Post r.
Proof.
  intros Hend Hskip Hstep. induction todo as [|i rest IH]; intros best b HI.
  - exists best. split; [done|]. by apply (Hend best b).
  - simpl. destruct (is_null (board !! i)) eqn:E.
    + apply is_null_true in E.
      destruct (Hstep i rest best b HI E) as (score & -> & Hs). simpl.
      rewrite (restore_cell board i X E).
      destruct (Num.leb (Num.min b score) alpha); [by eexists|].
      by apply IH.
    + apply IH. by eapply Hskip.
Qed.
End loop_rules.

(** ** minimax returns and restores the board *)

(** The shape of a call of minimax: a terminal board is scored on the spot,
    any other board is handed to one of the two loops. *)
Lemma minimax_fuel_unfold fuel (board : Board) depth isMaximizing alpha beta :
  minimax_fuel (S fuel) board depth isMaximizing alpha beta =
  match evaluate board with
  | Win O => Return (Fin (10 - depth), board)
  | Win X => Return (Fin (depth - 10), board)
  | Draw => Return (Fin 0, board)
  | InProgress =>
      if isMaximizing
      then max_loop (minimax_fuel fuel) cells board depth NegInf alpha beta
      else min_loop (minimax_fuel fuel) cells board depth PosInf alpha beta
  end.
Proof.
  simpl. unfold evaluate.
  destruct (checkWinner board) as [[|]|]; simpl; [done..|].
  by destruct (checkDraw board).
Qed.

Lemma minimax_fuel_frame fuel :
  forall (board : Board) depth isMaximizing alpha beta,
    (nulls cells board < fuel)%nat ->
    exists r, minimax_fuel fuel board depth isMaximizing alpha beta
              = Return (r, board).
Proof.
  induction fuel as [|fuel IH]; intros board depth isMax alpha beta Hn; [lia|].
  rewrite minimax_fuel_unfold.
  destruct (evaluate board) as [|[|]|]; try by eexists.
  destruct isMax.
  - destruct (max_loop_rule (minimax_fuel fuel) board depth
                (fun todo _ _ => todo ⊆ cells) (fun _ => True) beta)
      with (todo := cells) (best := NegInf) (a := alpha)
      as (r & Hr & _); [done| | |done|by exists r].
    + intros i rest _ _ Hsub _ j Hj. apply Hsub. by right.
    + intros i rest _ a Hsub Hi.
      assert (i ∈ cells) as Hic by (apply Hsub; left).
      destruct (IH (<[i := Some O]> board) (depth + 1) false a beta) as [s Hs].
      { pose proof (nulls_insert cells board i O NoDup_cells Hic Hi). lia. }
      exists s. split; [done|].
      destruct (Num.leb _ _); [done|]. intros j Hj. apply Hsub. by right.
  - destruct (min_loop_rule (minimax_fuel fuel) board depth
                (fun todo _ _ => todo ⊆ cells) (fun _ => True) alpha)
      with (todo := cells) (best := PosInf) (b := beta)
      as (r & Hr & _); [done| | |done|by exists r].
    + intros i rest _ _ Hsub _ j Hj. apply Hsub. by right.
    + intros i rest _ b Hsub Hi.
      assert (i ∈ cells) as Hic by (apply Hsub; left).
      destruct (IH (<[i := Some X]> board) (depth + 1) true alpha b) as [s Hs].
      { pose proof (nulls_insert cells board i X NoDup_cells Hic Hi). lia. }
      exists s. split; [done|].
      destruct (Num.leb _ _); [done|]. intros j Hj. apply Hsub. by right.
Qed.

Lemma minimax_frame (board : Board) depth isMaximizing alpha beta :
  exists r, minimax board depth isMaximizing alpha beta = Return (r, board).
Proof.
  apply minimax_fuel_frame. pose proof (nulls_cells_le board). lia.
Qed.

(** The top-level loop, by invariant: [Inv todo bestMove bestScore]. *)
Lemma best_loop_rule (board : Board) (Inv : list nat -> Z -> Num -> Prop) :
  (forall i rest move best,
      Inv (i :: rest) move best -> is_null (board !! i) = false ->
      Inv rest move best) ->
  (forall i rest move best score,
      Inv (i :: rest) move best -> board !! i = Some None ->
      minimax (<[i := Some O]> board) 0 false NegInf PosInf
        = Return (score, <[i := Some O]> board) ->
      if Num.ltb best score then Inv rest (Z.of_nat i) score
      else Inv rest move best) ->
  forall todo move best,
    Inv todo move best ->
    exists r best', best_loop todo board move best = Return (r, board)
                    /\ Inv [] r best'.
Proof.
  intros Hskip Hstep. induction todo as [|i rest IH]; intros move best HI.
  - by exists move, best.
  - simpl. destruct (is_null (board !! i)) eqn:E.
    + apply is_null_true in E.
      destruct (minimax_frame (<[i := Some O]> board) 0 false NegInf PosInf)
        as [score Hs].
      specialize (Hstep i rest move best score HI E Hs).
      rewrite Hs. simpl. rewrite (restore_cell board i O E).
      destruct (Num.ltb best score); by apply IH.
    + apply IH. by eapply Hskip.
Qed.

Lemma best_search_frame (board : Board) :
  exists move, best_search board = Return (move, board).
Proof.
  destruct (best_loop_rule board (fun _ _ _ => True))
    with (todo := cells) (move := -1) (best := NegInf)
    as (r & _ & Hr & _); try done.
  - intros. by destruct (Num.ltb _ _).
  - by exists r.
Qed.

Lemma getBestMove_hard rng (board : Board) cursor :
  getBestMove rng board hard cursor = search_move board cursor.
Proof. reflexivity. Qed.

Lemma search_move_frame (board : Board) cursor :
  exists move, best_search board = Return (move, board)
               /\ search_move board cursor = Return (number move, board, cursor).
Proof.
  destruct (best_search_frame board) as [z Hz]. exists z. split; [done|].
  unfold search_move. by rewrite Hz.
Qed.

(** C8: neither minimax nor getBestMove leaves a net change to the board.
    For every board and all arguments, minimax returns and the board it
    leaves is the board it was given (pruned branches included); the same
    holds of getBestMove at every difficulty and for every random stream. *)
Theorem board_restored (board : Board) :
  (forall depth isMaximizing alpha beta,
      exists score,
        minimax board depth isMaximizing alpha beta = Return (score, board))
  /\ (forall rng difficulty cursor,
        exists move cursor',
          getBestMove rng board difficulty cursor
            = Return (move, board, cursor')).
Proof.
  split; [intros; apply minimax_frame|].
  intros rng difficulty cursor.
  assert (forall c, exists move cursor',
             search_move board c = Return (move, board, cursor')) as Hsearch.
  { intros c. destruct (search_move_frame board c) as (z & _ & ->).
    by eexists _, _. }
  destruct difficulty; unfold getBestMove, Math_random.
  - destruct (Qlt_le_dec _ _); [by eexists _, _|apply Hsearch].
  - destruct (Qlt_le_dec _ _); [by eexists _, _|apply Hsearch].
  - apply Hsearch.
Qed.

(** ** Boards without an Empty cell *)

Lemma full_not_null (board : Board) i :
  Forall (fun cell => cell <> None) board -> is_null (board !! i) = false.
Proof.
  intros Hfull. destruct (board !! i) as [[m|]|] eqn:E; [done| |done].
  apply list_elem_of_lookup_2 in E.
  by apply (proj1 (Forall_forall _ _) Hfull) in E.
Qed.

Lemma best_loop_full (board : Board) todo move best :
  Forall (fun cell => cell <> None) board ->
  best_loop todo board move best = Return (move, board).
Proof.
  intros Hfull. induction todo as [|i rest IH]; simpl; [done|].
  by rewrite full_not_null.
Qed.

Lemma elem_of_availableMoves (board : Board) i :
  i ∈ availableMoves board <-> board !! i = Some None.
Proof.
  unfold availableMoves. rewrite list_elem_of_omap. split.
  - intros (x & Hx & Hid). simpl in Hid. subst x.
    apply list_elem_of_lookup in Hx as [j Hj].
    rewrite list_lookup_imap in Hj.
    destruct (board !! j) as [[m|]|] eqn:E; simpl in Hj; try discriminate.
    by injection Hj as ->.
  - intros Hi. exists (Some i). split; [|done].
    apply list_elem_of_lookup. exists i.
    rewrite list_lookup_imap, Hi. done.
Qed.

Lemma availableMoves_full (board : Board) :
  Forall (fun cell => cell <> None) board -> availableMoves board = [].
Proof.
  intros Hfull. destruct (availableMoves board) as [|i l] eqn:E; [done|].
  assert (i ∈ availableMoves board) as Hi by (rewrite E; left).
  apply elem_of_availableMoves in Hi.
  pose proof (full_not_null board i Hfull) as Hn. by rewrite Hi in Hn.
Qed.

Lemma random_pick_nil r : random_pick [] r = undefined.
Proof.
  unfold random_pick. rewrite lookup_nil. by destruct (_ <? 0).
Qed.

Lemma search_move_full (board : Board) cursor :
  Forall (fun cell => cell <> None) board ->
  search_move board cursor = Return (number (-1), board, cursor).
Proof.
  intros Hfull. unfold search_move, best_search.
  by rewrite best_loop_full.
Qed.

(** C10: for every board with zero Empty cells, getBestMove at difficulty
    hard returns [-1] without raising an error (the board and the random
    cursor are as before), and [-1] is not one of the indices 0..8. *)
Theorem getBestMove_hard_full rng (board : Board) cursor :
  Forall (fun cell => cell <> None) board ->
  getBestMove rng board hard cursor = Return (number (-1), board, cursor)
  /\ ~ throws (getBestMove rng board hard cursor)
  /\ ~ (0 <= -1 <= 8).
Proof.
  intros Hfull. rewrite getBestMove_hard, search_move_full by done.
  split; [done|]. split; [|lia]. by intros [e He].
Qed.

Lemma getBestMove_hard_full_witness :
  getBestMove rng0 full_board hard 0
    = Return (number (-1), full_board, 0%nat)
  /\ ~ throws (getBestMove rng0 full_board hard 0)
  /\ ~ (0 <= -1 <= 8).
Proof.
  apply (getBestMove_hard_full rng0 full_board 0).
  repeat constructor; discriminate.
Defined.

(** C6, as the specification states it, fails: [full_board] has no Empty
    cell, and getBestMove on it does not fail with an error, it returns
    [-1]. *)
Lemma fail_fast_counterexample :
  Forall (fun cell => cell <> None) full_board
  /\ getBestMove rng0 full_board hard 0
      = Return (number (-1), full_board, 0%nat)
  /\ ~ throws (getBestMove rng0 full_board hard 0).
Proof.
  split; [repeat constructor; discriminate|].
  split; [by vm_compute|].
  intros [e He]. vm_compute in He. discriminate.
Qed.

(** C6, amended: for every board with zero Empty cells, at every
    difficulty and for every random stream, getBestMove raises no error and
    leaves the board as it was. It returns [-1] exactly when it runs the
    search: always at hard, at easy when the gating draw is not below 0.7,
    at medium when it is not below 0.3 (one draw consumed at easy and
    medium). It returns [undefined] exactly when it takes the random pick:
    at easy when the gating draw is below 0.7, at medium when it is below
    0.3 (two draws consumed). Neither value is a cell index. *)
Theorem getBestMove_full_returns (rng : nat -> double) (board : Board)
    difficulty cursor :
  Forall (fun cell => cell <> None) board ->
  (difficulty = hard ->
     getBestMove rng board difficulty cursor
       = Return (number (-1), board, cursor))
  /\ (difficulty = easy ->
       ((rng cursor < double_0_7)%Q ->
          getBestMove rng board difficulty cursor
            = Return (undefined, board, S (S cursor)))
       /\ ((double_0_7 <= rng cursor)%Q ->
           getBestMove rng board difficulty cursor
             = Return (number (-1), board, S cursor)))
  /\ (difficulty = medium ->
       ((rng cursor < double_0_3)%Q ->
          getBestMove rng board difficulty cursor
            = Return (undefined, board, S (S cursor)))
       /\ ((double_0_3 <= rng cursor)%Q ->
           getBestMove rng board difficulty cursor
             = Return (number (-1), board, S cursor)))
  /\ ~ throws (getBestMove rng board difficulty cursor)
  /\ ~ (0 <= -1 <= 8).
Proof.
  intros Hfull.
  assert (forall (threshold : Q) (c : nat),
            let r : Run (Value * Board * nat) :=
              if Qlt_le_dec (rng cursor) threshold
              then Return (undefined, board, S (S cursor))
              else Return (number (-1), board, S cursor) in
            ((rng cursor < threshold)%Q ->
               r = Return (undefined, board, S (S cursor)))
            /\ ((threshold <= rng cursor)%Q ->
                r = Return (number (-1), board, S cursor))
            /\ ~ throws r) as Hgate.
  { intros threshold c. simpl.
    destruct (Qlt_le_dec (rng cursor) threshold) as [Hlt|Hge].
    - split; [done|]. split; [|by intros [e He]].
      intros Hge. by apply Qlt_not_le in Hlt.
    - split; [|split; [done|by intros [e He]]].
      intros Hlt. by apply Qlt_not_le in Hlt. }
  unfold getBestMove, Math_random.
  rewrite availableMoves_full, random_pick_nil, !search_move_full by done.
  destruct difficulty.
  - destruct (Hgate double_0_7 cursor) as (H1 & H2 & H3).
    split; [done|]. split; [done|]. split; [done|]. split; [done|lia].
  - destruct (Hgate double_0_3 cursor) as (H1 & H2 & H3).
    split; [done|]. split; [done|]. split; [done|]. split; [done|lia].
  - split; [done|]. split; [done|]. split; [done|].
    split; [by intros [e He]|lia].
Qed.

Lemma getBestMove_full_returns_witness :
  (easy = hard ->
     getBestMove rng0 full_board easy 0
       = Return (number (-1), full_board, 0%nat))
  /\ (easy = easy ->
       ((rng0 0%nat < double_0_7)%Q ->
          getBestMove rng0 full_board easy 0
            = Return (undefined, full_board, 2%nat))
       /\ ((double_0_7 <= rng0 0%nat)%Q ->
           getBestMove rng0 full_board easy 0
             = Return (number (-1), full_board, 1%nat)))
  /\ (easy = medium ->
       ((rng0 0%nat < double_0_3)%Q ->
          getBestMove rng0 full_board easy 0
            = Return (undefined, full_board, 2%nat))
       /\ ((double_0_3 <= rng0 0%nat)%Q ->
           getBestMove rng0 full_board easy 0
             = Return (number (-1), full_board, 1%nat)))
  /\ ~ throws (getBestMove rng0 full_board easy 0)
  /\ ~ (0 <= -1 <= 8).
Proof.
  apply (getBestMove_full_returns rng0 full_board easy 0).
  repeat constructor; discriminate.
Defined.

(** ** The example board *)

Lemma best_search_example :
  best_search example_board = Return (5, example_board).
Proof. by vm_compute. Qed.

(** C5, as the specification states it, fails: on the example board the
    move at difficulty hard is not index 2. *)
Lemma example_counterexample :
  ~ (exists board' cursor',
        getBestMove rng0 example_board hard 0
          = Return (number 2, board', cursor')).
Proof.
  intros (b & c & E).
  rewrite getBestMove_hard in E. unfold search_move in E.
  rewrite best_search_example in E. discriminate.
Qed.

(** C5, amended: on the board [X, X, Empty, O, O, Empty, Empty, Empty,
    Empty] getBestMove at difficulty hard returns index 5, which completes
    the line 3-4-5 of MarkB: the engine takes its own immediate win. *)
Theorem example_takes_win rng cursor :
  getBestMove rng example_board hard cursor
    = Return (number 5, example_board, cursor)
  /\ evaluate (ai_write example_board (number 5)) = Win O.
Proof.
  rewrite getBestMove_hard. unfold search_move.
  rewrite best_search_example. split; reflexivity.
Qed.

(** ** Determinism *)

(** C9: [evaluate] and getBestMove at difficulty hard are deterministic:
    equal boards have equal outcomes; on a board, the hard move is the same
    whatever the random stream and the cursor, the cursor is returned as it
    was given (no draw is consumed), and the board is left as it was, so a
    second call on it returns the same index. *)
Theorem hard_deterministic :
  (forall board1 board2 : Board,
      board1 = board2 -> evaluate board1 = evaluate board2)
  /\ (forall (board : Board) rng1 rng2 cursor1 cursor2,
        exists move,
          getBestMove rng1 board hard cursor1
            = Return (number move, board, cursor1)
          /\ getBestMove rng2 board hard cursor2
            = Return (number move, board, cursor2)).
Proof.
  split; [by intros ? ? ->|].
  intros board rng1 rng2 c1 c2. rewrite !getBestMove_hard.
  destruct (search_move_frame board c1) as (z & Hz & ->).
  exists z. split; [done|]. unfold search_move. by rewrite Hz.
Qed.

Lemma hard_deterministic_witness :
  evaluate example_board = evaluate example_board
  /\ exists move,
       getBestMove rng0 example_board hard 0
         = Return (number move, example_board, 0%nat)
       /\ getBestMove rng_half example_board hard 7
         = Return (number move, example_board, 7%nat).
Proof.
  split.
  - by apply (proj1 hard_deterministic example_board example_board).
  - apply (proj2 hard_deterministic).
Defined.

(** ** Scores of nine-cell boards are finite *)

Lemma evaluate_InProgress_null (board : Board) :
  evaluate board = InProgress -> exists i, board !! i = Some None.
Proof.
  unfold evaluate, checkDraw.
  destruct (checkWinner board); [done|].
  destruct (forallb _ board) eqn:E; [done|]. intros _.
  destruct (decide (Forall (fun cell : Player => cell <> None) board)) as [H|H].
  - apply forallb_not_null in H. congruence.
  - apply not_Forall_Exists in H; [|apply _].
    apply Exists_exists in H as (cell & Hin & Hc).
    apply list_elem_of_lookup in Hin as [i Hi]. exists i.
    destruct cell; [by destruct Hc|done].
Qed.

Lemma null_in_cells (board : Board) i :
  length board = 9%nat -> board !! i = Some None -> i ∈ cells.
Proof.
  intros Hlen Hi. apply elem_of_cells. apply lookup_lt_Some in Hi. lia.
Qed.

Lemma minimax_fuel_finite fuel :
  forall (board : Board) depth isMaximizing alpha beta,
    length board = 9%nat ->
    (nulls cells board < fuel)%nat ->
    exists z, minimax_fuel fuel board depth isMaximizing alpha beta
              = Return (Fin z, board).
Proof.
  induction fuel as [|fuel IH]; intros board depth isMax alpha beta Hlen Hn; [lia|].
  rewrite minimax_fuel_unfold.
  destruct (evaluate board) as [|[|]|] eqn:Hev; try by eexists.
  destruct (evaluate_InProgress_null board Hev) as [i0 Hi0].
  pose proof (null_in_cells board i0 Hlen Hi0) as Hi0c.
  set (Inv := fun (init : Num) (todo : list nat) (best : Num) (_ : Num) =>
                todo ⊆ cells
                /\ (finite best
                    \/ best = init
                       /\ exists i, i ∈ todo /\ board !! i = Some None)).
  assert (forall init i rest best a, Inv init (i :: rest) best a ->
            is_null (board !! i) = false -> Inv init rest best a) as Hskip.
  { intros init i rest best a [Hsub Hb] Hi. split.
    - intros j Hj. apply Hsub. by right.
    - destruct Hb as [Hb|(Hb & j & Hj & Hjn)]; [by left|right].
      split; [done|]. exists j. split; [|done].
      apply elem_of_cons in Hj as [->|Hj]; [|done].
      by rewrite Hjn in Hi. }
  assert (forall init best a, Inv init [] best a -> finite best) as Hend.
  { intros init best a [_ [Hb|(_ & j & Hj & _)]];
      [done|by apply elem_of_nil in Hj]. }
  assert (Inv NegInf cells NegInf alpha /\ Inv PosInf cells PosInf beta)
    as [Hmax Hmin].
  { split; (split; [done|right; split; [done|by exists i0]]). }
  destruct isMax.
  - destruct (max_loop_rule (minimax_fuel fuel) board depth
                (Inv NegInf) finite beta)
      with (todo := cells) (best := NegInf) (a := alpha)
      as (r & Hr & [z ->]); [by eapply Hend|by apply Hskip| |done|by exists z].
    intros i rest best a [Hsub Hb] Hi.
    assert (i ∈ cells) as Hic by (apply Hsub; left).
    destruct (IH (<[i := Some O]> board) (depth + 1) false a beta) as [z Hz].
    { by rewrite length_insert. }
    { pose proof (nulls_insert cells board i O NoDup_cells Hic Hi). lia. }
    exists (Fin z). split; [done|].
    assert (finite (Num.max (Fin z) best)) as Hfin.
    { destruct Hb as [[y ->]|[-> _]]; [|by exists z].
      unfold Num.max. simpl. destruct (z <=? y); by eexists. }
    destruct (Num.leb _ _); [done|]. split; [|by left].
    intros j Hj. apply Hsub. by right.
  - destruct (min_loop_rule (minimax_fuel fuel) board depth
                (Inv PosInf) finite alpha)
      with (todo := cells) (best := PosInf) (b := beta)
      as (r & Hr & [z ->]); [by eapply Hend|by apply Hskip| |done|by exists z].
    intros i rest best b [Hsub Hb] Hi.
    assert (i ∈ cells) as Hic by (apply Hsub; left).
    destruct (IH (<[i := Some X]> board) (depth + 1) true alpha b) as [z Hz].
    { by rewrite length_insert. }
    { pose proof (nulls_insert cells board i X NoDup_cells Hic Hi). lia. }
    exists (Fin z). split; [done|].
    assert (finite (Num.min (Fin z) best)) as Hfin.
    { destruct Hb as [[y ->]|[-> _]]; [|by exists z].
      unfold Num.min. simpl. destruct (z <=? y); by eexists. }
    destruct (Num.leb _ _); [done|]. split; [|by left].
    intros j Hj. apply Hsub. by right.
Qed.

Lemma minimax_finite (board : Board) depth isMaximizing alpha beta :
  length board = 9%nat ->
  exists z, minimax board depth isMaximizing alpha beta = Return (Fin z, board).
Proof.
  intros Hlen. apply minimax_fuel_finite; [done|].
  pose proof (nulls_cells_le board). lia.
Qed.

(** ** The move is an Empty cell *)

Lemma best_search_null (board : Board) :
  length board = 9%nat ->
  (exists i, board !! i = Some None) ->
  exists i, best_search board = Return (Z.of_nat i, board)
            /\ board !! i = Some None.
Proof.
  intros Hlen [i0 Hi0].
  pose proof (null_in_cells board i0 Hlen Hi0) as Hi0c.
  set (Inv := fun (todo : list nat) (move : Z) (best : Num) =>
                (move = -1 /\ best = NegInf
                 /\ exists i, i ∈ todo /\ board !! i = Some None)
                \/ exists i, move = Z.of_nat i /\ board !! i = Some None).
  destruct (best_loop_rule board Inv)
    with (todo := cells) (move := -1) (best := NegInf)
    as (r & best' & Hr & HI).
  - intros i rest move best [(-> & -> & j & Hj & Hjn)|H] Hi; [left|by right].
    do 2 (split; [done|]). exists j. split; [|done].
    apply elem_of_cons in Hj as [->|Hj]; [|done]. by rewrite Hjn in Hi.
  - intros i rest move best score HI Hi Hs.
    destruct (minimax_finite (<[i := Some O]> board) 0 false NegInf PosInf)
      as [z Hz]; [by rewrite length_insert|].
    rewrite Hz in Hs. injection Hs as <-.
    destruct HI as [(-> & -> & _)|H].
    + simpl. right. by exists i.
    + destruct (Num.ltb best (Fin z)); right; [by exists i|done].
  - left. do 2 (split; [done|]). by exists i0.
  - destruct HI as [(_ & _ & j & Hj & _)|(i & -> & Hi)].
    + by apply elem_of_nil in Hj.
    + by exists i.
Qed.

(** ** Binary64 rounding *)

Lemma pow2_pos e : (0 < pow2 e)%Q.
Proof. apply Qpower_0_lt. reflexivity. Qed.

Lemma pow2_add a b : (pow2 (a + b) == pow2 a * pow2 b)%Q.
Proof. apply Qpower_plus. discriminate. Qed.

Lemma pow2_le a b : a <= b -> (pow2 a <= pow2 b)%Q.
Proof. intros H. apply Qpower_le_compat_l; [exact H|discriminate]. Qed.

Lemma pow2_lt a b : a < b -> (pow2 a < pow2 b)%Q.
Proof. intros H. apply Qpower_lt_compat_l; [exact H|reflexivity]. Qed.


Lemma pow2_inject k : 0 <= k -> (pow2 k == inject_Z (2 ^ k))%Q.
Proof. intros H. unfold pow2. symmetry. exact (Zpower_Qpower 2 k H). Qed.

Lemma pow2_half e : (pow2 (e - 1) == pow2 e * (1 # 2))%Q.
Proof. unfold Z.sub. rewrite pow2_add. reflexivity. Qed.

(** ** Rounding to the nearest integer *)

Lemma rne_bounds (y : Q) :
  (inject_Z (rne y) <= y + (1 # 2))%Q /\ (y - (1 # 2) <= inject_Z (rne y))%Q
  /\ Qfloor y <= rne y <= Qfloor y + 1.
Proof.
  pose proof (Qfloor_le y) as Hle. pose proof (Qlt_floor y) as Hlt.
  rewrite inject_Z_plus in Hlt. change (inject_Z 1) with 1%Q in Hlt.
  assert (inject_Z (Qfloor y + 1) == inject_Z (Qfloor y) + 1)%Q as Hp
    by (rewrite inject_Z_plus; reflexivity).
  unfold rne.
  destruct (y - inject_Z (Qfloor y) ?= 1 # 2)%Q eqn:E.
  - apply Qeq_alt in E. destruct (Z.even (Qfloor y)).
    + split; [lra|]. split; [lra|lia].
    + rewrite Hp. split; [lra|]. split; [lra|lia].
  - apply Qlt_alt in E. split; [lra|]. split; [lra|lia].
  - apply Qgt_alt in E. rewrite Hp. split; [lra|]. split; [lra|lia].
Qed.

(** ** The binary exponent *)

Lemma ilog2_le (x : Q) : (0 < x)%Q -> (pow2 (ilog2 x) <= x)%Q.
Proof.
  intros Hx. unfold ilog2.
  destruct (Qle_bool _ x) eqn:E; [by apply Qle_bool_iff|]. clear E.
  destruct x as [p q]. cbn [Qnum Qden] in *.
  assert (0 < p) as Hp.
  { unfold Qlt in Hx. simpl in Hx. lia. }
  pose proof (Z.log2_spec p Hp) as [Ha _].
  pose proof (Z.log2_spec (Z.pos q) ltac:(lia)) as [_ Hb].
  pose proof (Z.log2_nonneg p) as Ha0.
  pose proof (Z.log2_nonneg (Z.pos q)) as Hb0.
  set (a := Z.log2 p) in *. set (b := Z.log2 (Z.pos q)) in *.
  replace (a - b - 1) with (a + - (b + 1)) by lia.
  rewrite pow2_add. unfold pow2 at 2. rewrite Qpower_opp.
  fold (pow2 (b + 1)).
  rewrite (pow2_inject a) by lia. rewrite (pow2_inject (b + 1)) by lia.
  rewrite (Qmake_Qdiv p q).
  apply Qle_shift_div_l; [reflexivity|].
  unfold Qdiv. rewrite <- Qmult_assoc, (Qmult_comm (/ _)), Qmult_assoc.
  apply Qle_shift_div_r.
  { rewrite <- (Zlt_Qlt 0). pose proof (Z.pow_pos_nonneg 2 (b + 1)). lia. }
  rewrite <- !inject_Z_mult, <- Zle_Qle.
  replace (Z.succ b) with (b + 1) in Hb by lia.
  nia.
Qed.

(** ** The rounded product *)

Lemma round64_pos_scaled (x : Q) (e : Z) :
  (x / pow2 e * pow2 e == x)%Q.
Proof.
  unfold Qdiv. rewrite <- Qmult_assoc, (Qmult_comm (/ _)), Qmult_inv_r.
  - apply Qmult_1_r.
  - pose proof (pow2_pos e). lra.
Qed.

Lemma round64_pos_nonneg (x : Q) : (0 <= x)%Q -> (0 <= round64_pos x)%Q.
Proof.
  intros Hx. unfold round64_pos.
  set (e := Z.max _ _). pose proof (pow2_pos e) as Hu.
  apply Qmult_le_0_compat; [|lra].
  destruct (rne_bounds (x / pow2 e)) as (_ & _ & Hf & _).
  assert (0 <= Qfloor (x / pow2 e)).
  { rewrite <- (Qfloor_Z 0). apply Qfloor_resp_le.
    apply Qle_shift_div_l; [done|]. change (inject_Z 0) with 0%Q. lra. }
  rewrite <- (Zle_Qle 0). lia.
Qed.

(** The rounded value exceeds [x] by at most half a unit in the last
    place. *)
Lemma round64_pos_le (x : Q) :
  (round64_pos x
   <= x + pow2 (Z.max (ilog2 x - 52) (-1074)) * (1 # 2))%Q.
Proof.
  unfold round64_pos. set (e := Z.max _ _).
  pose proof (pow2_pos e) as Hu.
  destruct (rne_bounds (x / pow2 e)) as (Hr & _).
  apply (Qmult_le_compat_r _ _ (pow2 e)) in Hr; [|lra].
  rewrite Qmult_plus_distr_l, round64_pos_scaled in Hr. lra.
Qed.

(** A product [r * n] with [0 <= r <= 1 - 2^-53] and [1 <= n], once
    rounded, is still below [n]. *)
Lemma round64_product (r : Q) (n : Z) :
  (0 <= r)%Q -> (r <= 1 - pow2 (-53))%Q -> 1 <= n ->
  (0 <= round64 (r * inject_Z n))%Q /\ (round64 (r * inject_Z n) < inject_Z n)%Q.
Proof.
  intros H0 H1 Hn.
  assert (1 <= inject_Z n)%Q as HnQ by (by rewrite <- (Zle_Qle 1)).
  pose proof (pow2_pos (-53)) as Hc. set (c := pow2 (-53)) in *.
  set (x := (r * inject_Z n)%Q).
  assert (0 <= x)%Q as Hx0 by (apply Qmult_le_0_compat; lra).
  assert (x <= inject_Z n - inject_Z n * c)%Q as Hx1.
  { apply (Qmult_le_compat_r _ _ (inject_Z n)) in H1; [|lra].
    unfold x. ring_simplify in H1. lra. }
  assert (0 < inject_Z n * c)%Q as Hnc by (apply Qmult_lt_0_compat; lra).
  unfold round64. destruct (x ?= 0)%Q eqn:E.
  - split; [done|lra].
  - apply Qlt_alt in E. lra.
  - apply Qgt_alt in E. split; [by apply round64_pos_nonneg|].
    pose proof (round64_pos_le x) as Hr.
    assert (pow2 (Z.max (ilog2 x - 52) (-1074)) * (1 # 2) < inject_Z n * c)%Q
      as Hh; [|lra].
    destruct (Z.max_spec (ilog2 x - 52) (-1074)) as [[_ ->]|[_ ->]].
    + assert (pow2 (-1074) * (1 # 2) < c)%Q.
      { rewrite <- pow2_half. by apply pow2_lt. }
      assert (c * 1 <= c * inject_Z n)%Q by (apply Qmult_le_l; lra).
      lra.
    + replace (ilog2 x - 52) with (ilog2 x + -53 + 1) by lia.
      rewrite pow2_add, (pow2_add _ (-53)). fold c.
      pose proof (ilog2_le x E) as Hl.
      assert (pow2 (ilog2 x) * c <= x * c)%Q
        by (apply Qmult_le_compat_r; lra).
      assert (x * c < inject_Z n * c)%Q
        by (apply Qmult_lt_compat_r; lra).
      change (pow2 1) with 2%Q. lra.
Qed.

(** ** Draws *)

Lemma double_below_one (d : double) :
  (d < 1)%Q -> (d <= 1 - pow2 (-53))%Q.
Proof.
  destruct d as [m e Hwf]. unfold value. cbn [mantissa exponent].
  unfold is_binary64 in Hwf.
  apply andb_prop in Hwf as [Hwf He2]. apply andb_prop in Hwf as [Hm He1].
  apply Z.ltb_lt in Hm. apply Z.leb_le in He1, He2.
  intros Hlt.
  pose proof (pow2_pos e) as Hu. pose proof (pow2_pos (-53)) as Hc.
  destruct (Z.le_gt_cases (-53) e) as [Hge|Hlt'].
  - assert (pow2 e == inject_Z (2 ^ (e + 53)) * pow2 (-53))%Q as He.
    { rewrite <- pow2_inject by lia. rewrite <- pow2_add. by replace (e + 53 + -53) with e by lia. }
    rewrite He in Hlt |- *. rewrite Qmult_assoc, <- inject_Z_mult in Hlt |- *.
    assert (inject_Z (m * 2 ^ (e + 53)) < inject_Z (2 ^ 53))%Q as Hz.
    { apply (Qmult_lt_r _ _ (pow2 (-53))); [done|].
      assert (inject_Z (2 ^ 53) * pow2 (-53) == 1)%Q as -> by reflexivity.
      done. }
    rewrite <- Zlt_Qlt in Hz.
    assert (inject_Z (m * 2 ^ (e + 53)) <= inject_Z (2 ^ 53 - 1))%Q as Hz'
      by (rewrite <- Zle_Qle; lia).
    apply (Qmult_le_compat_r _ _ (pow2 (-53))) in Hz'; [|lra].
    assert (inject_Z (2 ^ 53 - 1) * pow2 (-53) == 1 - pow2 (-53))%Q as E
      by reflexivity.
    rewrite E in Hz'. done.
  - assert (pow2 e <= pow2 (-54))%Q as He by (apply pow2_le; lia).
    assert (inject_Z m <= inject_Z (2 ^ 53))%Q as Hm' by (rewrite <- Zle_Qle; lia).
    destruct (Z.le_gt_cases m 0) as [Hneg|Hpos].
    + assert (inject_Z m <= 0)%Q
        by (change 0%Q with (inject_Z 0); by rewrite <- Zle_Qle).
      assert (inject_Z m * pow2 e <= 0 * pow2 e)%Q
        by (apply Qmult_le_compat_r; lra).
      assert (pow2 (-53) <= 1 # 2)%Q by (by vm_compute).
      lra.
    + assert (0 <= inject_Z m)%Q
        by (change 0%Q with (inject_Z 0); rewrite <- Zle_Qle; lia).
      assert (inject_Z m * pow2 e <= inject_Z (2 ^ 53) * pow2 (-54))%Q
        by (apply Qmult_le_compat_nonneg; split; lra).
      assert (inject_Z (2 ^ 53) * pow2 (-54) == 1 # 2)%Q as E by reflexivity.
      assert (pow2 (-53) <= 1 # 2)%Q by (by vm_compute).
      lra.
Qed.

(** The index of the random pick: a draw in [0, 1) times a positive length,
    rounded and floored, is an index below the length. *)
Lemma pick_index (r : double) (n : nat) :
  (0 <= r)%Q -> (r < 1)%Q -> (0 < n)%nat ->
  0 <= Qfloor (round64 (r * inject_Z (Z.of_nat n))) < Z.of_nat n.
Proof.
  intros H0 H1 Hn.
  destruct (round64_product r (Z.of_nat n) H0 (double_below_one r H1))
    as [Hlo Hhi]; [lia|].
  split.
  - rewrite <- (Qfloor_Z 0). by apply Qfloor_resp_le.
  - rewrite Zlt_Qlt. eapply Qle_lt_trans; [apply Qfloor_le|done].
Qed.




Lemma random_pick_null (board : Board) (r : double) :
  (0 <= r)%Q -> (r < 1)%Q ->
  (exists i, board !! i = Some None) ->
  exists i, random_pick (availableMoves board) r = number (Z.of_nat i)
            /\ board !! i = Some None.
Proof.
  intros H0 H1 [i0 Hi0]. apply elem_of_availableMoves in Hi0.
  assert (0 < length (availableMoves board))%nat as Hlen.
  { destruct (availableMoves board); [by apply elem_of_nil in Hi0|simpl; lia]. }
  pose proof (pick_index r _ H0 H1 Hlen) as [Hk0 Hk1].
  unfold random_pick.
  set (k := Qfloor _) in *.
  destruct (Z.ltb_spec k 0); [lia|].
  destruct (lookup_lt_is_Some_2 (availableMoves board) (Z.to_nat k))
    as [i Hi]; [lia|].
  rewrite Hi. exists i. split; [done|].
  apply elem_of_availableMoves. by eapply list_elem_of_lookup_2.
Qed.

(** What C2 and C7 rest on: on a nine-cell board with an Empty cell, and
    with draws in [0, 1), getBestMove returns the index of an Empty cell. *)
Lemma getBestMove_null (rng : nat -> double) (board : Board) difficulty cursor :
  length board = 9%nat ->
  (exists i, board !! i = Some None) ->
  (forall n, (0 <= rng n)%Q /\ (rng n < 1)%Q) ->
  exists i cursor',
    getBestMove rng board difficulty cursor
      = Return (number (Z.of_nat i), board, cursor')
    /\ board !! i = Some None.
Proof.
  intros Hlen Hnull Hrng.
  assert (forall c, exists i cursor',
             search_move board c = Return (number (Z.of_nat i), board, cursor')
             /\ board !! i = Some None) as Hsearch.
  { intros c. destruct (best_search_null board Hlen Hnull) as (i & Hi & Hn).
    exists i, c. unfold search_move. by rewrite Hi. }
  assert (forall c c' : nat, exists i cursor',
             Return (random_pick (availableMoves board) (rng c), board, c')
               = Return (number (Z.of_nat i), board, cursor')
             /\ board !! i = Some None) as Hpick.
  { intros c c'. destruct (Hrng c) as [H0 H1].
    destruct (random_pick_null board (rng c) H0 H1 Hnull) as (i & -> & Hn).
    by exists i, c'. }
  destruct difficulty; unfold getBestMove, Math_random.
  - destruct (Qlt_le_dec _ _); [apply Hpick|apply Hsearch].
  - destruct (Qlt_le_dec _ _); [apply Hpick|apply Hsearch].
  - apply Hsearch.
Qed.

(** C2: for every (nine-cell) board whose outcome is InProgress and which
    has at least one Empty cell, for every difficulty and every outcome of
    the random draws (each in [0, 1)), getBestMove returns an index [i] with
    [0 <= i <= 8] and [board[i] == Empty]. *)
Theorem getBestMove_valid (rng : nat -> double)
    (board : Board) difficulty cursor :
  length board = 9%nat ->
  evaluate board = InProgress ->
  (exists i, board !! i = Some None) ->
  (forall n, (0 <= rng n)%Q /\ (rng n < 1)%Q) ->
  exists i cursor',
    getBestMove rng board difficulty cursor
      = Return (number (Z.of_nat i), board, cursor')
    /\ 0 <= Z.of_nat i <= 8
    /\ board !! i = Some None.
Proof.
  intros Hlen _ Hnull Hrng.
  destruct (getBestMove_null rng board difficulty cursor Hlen Hnull Hrng)
    as (i & c & Hi & Hn).
  exists i, c. split; [done|]. split; [|done].
  apply lookup_lt_Some in Hn. lia.
Qed.

Lemma getBestMove_valid_witness :
  exists i cursor',
    getBestMove rng_half example_board easy 0
      = Return (number (Z.of_nat i), example_board, cursor')
    /\ 0 <= Z.of_nat i <= 8
    /\ example_board !! i = Some None.
Proof.
  apply (getBestMove_valid rng_half example_board easy 0).
  - reflexivity.
  - reflexivity.
  - by exists 2%nat.
  - intros n. split; by vm_compute.
Defined.

(** C7: for every (nine-cell) board with exactly one Empty cell, at index
    [i], and outcome InProgress, getBestMove returns [i] at every difficulty
    and for every outcome of the random draws (each in [0, 1)). *)
Theorem getBestMove_single (rng : nat -> double)
    (board : Board) difficulty cursor i :
  length board = 9%nat ->
  evaluate board = InProgress ->
  board !! i = Some None ->
  (forall j, board !! j = Some None -> j = i) ->
  (forall n, (0 <= rng n)%Q /\ (rng n < 1)%Q) ->
  exists cursor',
    getBestMove rng board difficulty cursor
      = Return (number (Z.of_nat i), board, cursor').
Proof.
  intros Hlen _ Hi Honly Hrng.
  destruct (getBestMove_null rng board difficulty cursor Hlen) as (j & c & Hj & Hn);
    [by exists i|done|].
  apply Honly in Hn as ->. by exists c.
Qed.

Lemma getBestMove_single_witness :
  exists cursor',
    getBestMove rng_half single_board medium 0
      = Return (number 8, single_board, cursor').
Proof.
  apply (getBestMove_single rng_half single_board medium 0 8).
  - reflexivity.
  - reflexivity.
  - reflexivity.
  - intros j Hj. do 9 (destruct j as [|j]; [done|]). done.
  - intros n. split; by vm_compute.
Defined.

(** ** Playing against the engine at difficulty hard *)

Lemma safe_start : safe 9 X (replicate 9 None) = true.
Proof. by vm_compute. Qed.

Lemma safe_unfold n turn (board : Board) :
  safe n turn board =
  match evaluate board with
  | Win X => false
  | Win O | Draw => true
  | InProgress =>
      match n with
      | 0%nat => false
      | S n =>
          match turn with
          | X => forallb (fun i => if is_null (board !! i)
                                   then safe n O (human_move board i)
                                   else true) cells
          | O => match best_search board with
                 | Return (aiMove, _) => safe n X (ai_write board (number aiMove))
                 | _ => false
                 end
          end
      end
  end.
Proof. by destruct n. Qed.

Lemma length_ai_write (board : Board) aiMove :
  length (ai_write board aiMove) = length board.
Proof.
  destruct aiMove as [|z]; simpl; [done|].
  destruct (0 <=? z); [apply length_insert|done].
Qed.

Lemma position_safe rng turn (board : Board) :
  position rng turn board ->
  length board = 9%nat /\ exists n, safe n turn board = true.
Proof.
  induction 1 as [|board index _ [Hlen [n Hn]] Hev Hi
                  |board cursor aiMove board' cursor' _ [Hlen [n Hn]] Hev Hm].
  - split; [done|]. exists 9%nat. apply safe_start.
  - split; [unfold human_move; by rewrite length_insert|].
    rewrite safe_unfold, Hev in Hn. destruct n as [|n]; [done|].
    exists n. rewrite forallb_forall in Hn.
    specialize (Hn index). rewrite Hi in Hn. apply Hn.
    apply list_elem_of_In. by apply (null_in_cells board).
  - split; [by rewrite length_ai_write|].
    rewrite safe_unfold, Hev in Hn. destruct n as [|n]; [done|].
    exists n. rewrite getBestMove_hard in Hm. unfold search_move in Hm.
    destruct (best_search board) as [[z b]| |]; try done.
    simpl in Hm. by injection Hm as <- _ _.
Qed.

(** C1: difficulty hard is lossless. In the game that starts from the
    all-Empty board with MarkA moving first, MarkA playing any legal moves
    and MarkB's moves chosen by getBestMove at difficulty hard, no board
    that is reached has outcome Win(MarkA); every terminal board is
    Win(MarkB) or Draw. *)
Theorem hard_lossless rng turn (board : Board) :
  position rng turn board ->
  evaluate board <> Win X
  /\ (evaluate board <> InProgress ->
      evaluate board = Win O \/ evaluate board = Draw).
Proof.
  intros Hpos. apply position_safe in Hpos as [_ [n Hn]].
  rewrite safe_unfold in Hn.
  destruct (evaluate board) as [|[|]|]; try done; split; auto; done.
Qed.

(** The game 0, 4, 1, 2, 3, 6: MarkB completes the diagonal 2-4-6. *)
Lemma hard_lossless_witness :
  evaluate [Some X; Some X; Some O; Some X; Some O; None; Some O; None; None]
    <> Win X
  /\ (evaluate [Some X; Some X; Some O; Some X; Some O; None; Some O; None; None]
        <> InProgress ->
      evaluate [Some X; Some X; Some O; Some X; Some O; None; Some O; None; None]
        = Win O
      \/ evaluate [Some X; Some X; Some O; Some X; Some O; None; Some O; None; None]
        = Draw).
Proof.
  apply (hard_lossless rng0 X).
  pose proof (position_start rng0) as P0.
  assert (position rng0 O
            [Some X; None; None; None; None; None; None; None; None]) as P1.
  { apply (position_human rng0 _ 0 P0); by vm_compute. }
  assert (position rng0 X
            [Some X; None; None; None; Some O; None; None; None; None]) as P2.
  { apply (position_ai rng0 _ 0 (number 4)
             [Some X; None; None; None; None; None; None; None; None] 0 P1); by vm_compute. }
  assert (position rng0 O
            [Some X; Some X; None; None; Some O; None; None; None; None]) as P3.
  { apply (position_human rng0 _ 1 P2); by vm_compute. }
  assert (position rng0 X
            [Some X; Some X; Some O; None; Some O; None; None; None; None]) as P4.
  { apply (position_ai rng0 _ 0 (number 2)
             [Some X; Some X; None; None; Some O; None; None; None; None] 0 P3); by vm_compute. }
  assert (position rng0 O
            [Some X; Some X; Some O; Some X; Some O; None; None; None; None]) as P5.
  { apply (position_human rng0 _ 3 P4); by vm_compute. }
  apply (position_ai rng0 _ 0 (number 6)
           [Some X; Some X; Some O; Some X; Some O; None; None; None; None] 0 P5); by vm_compute.
Defined.

(** ** The order of scores *)

Module NumOrderFacts.
Import NumOrder.

Lemma eq_equiv : Equivalence eq.
Proof. unfold eq. split; congruence. Qed.

Lemma lt_strorder : StrictOrder lt.
Proof.
  split.
  - intros x H. unfold lt, t in *. num_solve.
  - intros x y z H1 H2. unfold lt, t in *. num_solve.
Qed.

Lemma lt_compat : Proper (eq ==> eq ==> iff) lt.
Proof. intros x x' -> y y' ->. done. Qed.

Lemma le_lteq x y : le x y <-> lt x y \/ eq x y.
Proof.
  unfold le, lt, eq, t, Num.le, Num.lt, Num.ltb.
  destruct x as [|x|], y as [|y|]; simpl;
    try (intuition (congruence || auto); fail).
  rewrite negb_true_iff, Z.leb_le, Z.leb_gt. split.
  - intros H. destruct (decide (x = y)) as [->|]; [by right|left; lia].
  - intros [H|[= ->]]; lia.
Qed.

Lemma lt_total x y : lt x y \/ eq x y \/ lt y x.
Proof.
  unfold lt, eq, t, Num.lt, Num.ltb.
  destruct x as [|x|], y as [|y|]; simpl; auto.
  rewrite !negb_true_iff, !Z.leb_gt.
  destruct (Z.lt_total x y) as [?|[->|?]]; auto.
Qed.
End NumOrderFacts.

Module NumTac := OrdersTac.MakeOrderTac NumOrder NumOrderFacts.

Lemma leb_cases x y :
  Num.leb x y = true /\ Num.le x y \/ Num.leb x y = false /\ Num.lt y x.
Proof.
  unfold Num.le, Num.lt, Num.ltb. destruct (Num.leb x y); auto.
Qed.

Lemma le_or_lt x y : Num.le x y \/ Num.lt y x.
Proof. destruct (leb_cases x y) as [[_ H]|[_ H]]; auto. Qed.

(** Goals about the order of scores, their maxima and minima: case
    analysis on each comparison, then the order. *)
Ltac num_order :=
  unfold Num.max, Num.min in *;
  repeat match goal with
         | H : _ /\ _ |- _ => destruct H
         | |- _ /\ _ => split
         | |- _ -> _ => intro
         | H : context [Num.leb ?x ?y] |- _ =>
             let E := fresh "E" in
             destruct (leb_cases x y) as [[E ?]|[E ?]]; rewrite !E in *; clear E
         | |- context [Num.leb ?x ?y] =>
             let E := fresh "E" in
             destruct (leb_cases x y) as [[E ?]|[E ?]]; rewrite !E in *; clear E
         | H : Num.le ?x ?y -> _ |- _ =>
             let Hx := fresh "Hx" in
             destruct (le_or_lt x y) as [Hx|Hx]; [specialize (H Hx)|clear H]
         | H : Num.lt ?x ?y -> _ |- _ =>
             let Hx := fresh "Hx" in
             destruct (le_or_lt y x) as [Hx|Hx]; [clear H|specialize (H Hx)]
         end;
  change Num.le with NumOrder.le in *; change Num.lt with NumOrder.lt in *;
  change (@Logic.eq Num) with NumOrder.eq in *;
  try discriminate; NumTac.order.

(** ** Alpha-beta pruning against the exhaustive search *)

Lemma window_exact alpha beta v : window alpha beta v v.
Proof. unfold window. num_order. Qed.

Lemma window_full v r : window NegInf PosInf v r -> r = v.
Proof.
  unfold window. intros (H1 & H2 & H3).
  destruct r; [| |].
  - assert (Num.le v NegInf) by (by apply H1). by destruct v.
  - by apply H3.
  - assert (Num.le PosInf v) by (by apply H2). by destruct v.
Qed.

Lemma max_break alpha0 beta best vi r v :
  Num.lt (Num.max alpha0 best) beta ->
  window (Num.max alpha0 best) beta vi r ->
  Num.le vi v ->
  Num.le beta (Num.max (Num.max alpha0 best) r) ->
  window alpha0 beta v (Num.max r best).
Proof. unfold window. num_order. Qed.

Lemma max_continue alpha0 beta best vb vi r :
  Num.lt (Num.max alpha0 best) beta ->
  Num.le vb best ->
  (Num.lt alpha0 best -> best = vb) ->
  window (Num.max alpha0 best) beta vi r ->
  Num.lt (Num.max (Num.max alpha0 best) r) beta ->
  Num.max (Num.max alpha0 best) r = Num.max alpha0 (Num.max r best)
  /\ Num.le (Num.max vi vb) (Num.max r best)
  /\ (Num.lt alpha0 (Num.max r best) -> Num.max r best = Num.max vi vb).
Proof. unfold window. num_order. Qed.

Lemma max_end alpha0 beta best v :
  Num.lt (Num.max alpha0 best) beta ->
  Num.le v best ->
  (Num.lt alpha0 best -> best = v) ->
  window alpha0 beta v best.
Proof. unfold window. num_order. Qed.

Lemma min_break alpha beta0 best vi r v :
  Num.lt alpha (Num.min beta0 best) ->
  window alpha (Num.min beta0 best) vi r ->
  Num.le v vi ->
  Num.le (Num.min (Num.min beta0 best) r) alpha ->
  window alpha beta0 v (Num.min r best).
Proof. unfold window. num_order. Qed.

Lemma min_continue alpha beta0 best vb vi r :
  Num.lt alpha (Num.min beta0 best) ->
  Num.le best vb ->
  (Num.lt best beta0 -> best = vb) ->
  window alpha (Num.min beta0 best) vi r ->
  Num.lt alpha (Num.min (Num.min beta0 best) r) ->
  Num.min (Num.min beta0 best) r = Num.min beta0 (Num.min r best)
  /\ Num.le (Num.min r best) (Num.min vi vb)
  /\ (Num.lt (Num.min r best) beta0 -> Num.min r best = Num.min vi vb).
Proof. unfold window. num_order. Qed.

Lemma min_end alpha beta0 best v :
  Num.lt alpha (Num.min beta0 best) ->
  Num.le best v ->
  (Num.lt best beta0 -> best = v) ->
  window alpha beta0 v best.
Proof. unfold window. num_order. Qed.

Section exhaustive_facts.
Variable rec : Board -> Z -> bool -> Run Num.
Variables (board : Board) (depth : Z).

Lemma max_all_null i rest best :
  board !! i = Some None ->
  max_all rec (i :: rest) board depth best =
  (score ← rec (<[i := Some O]> board) (depth + 1) false;
   max_all rec rest board depth (Num.max score best)).
Proof. intros Hi. simpl. by rewrite Hi. Qed.

Lemma max_all_skip i rest best :
  is_null (board !! i) = false ->
  max_all rec (i :: rest) board depth best = max_all rec rest board depth best.
Proof. intros Hi. simpl. by rewrite Hi. Qed.

Lemma min_all_null i rest best :
  board !! i = Some None ->
  min_all rec (i :: rest) board depth best =
  (score ← rec (<[i := Some X]> board) (depth + 1) true;
   min_all rec rest board depth (Num.min score best)).
Proof. intros Hi. simpl. by rewrite Hi. Qed.

Lemma min_all_skip i rest best :
  is_null (board !! i) = false ->
  min_all rec (i :: rest) board depth best = min_all rec rest board depth best.
Proof. intros Hi. simpl. by rewrite Hi. Qed.

Lemma max_all_total todo best :
  (forall i, i ∈ todo -> board !! i = Some None ->
             exists v, rec (<[i := Some O]> board) (depth + 1) false = Return v) ->
  exists v, max_all rec todo board depth best = Return v.
Proof.
  revert best. induction todo as [|i rest IH]; intros best Hrec; [by eexists|].
  destruct (is_null (board !! i)) eqn:E.
  - apply is_null_true in E. rewrite max_all_null by done.
    destruct (Hrec i) as [v ->]; [left|done|]. simpl.
    apply IH. intros j Hj. apply Hrec. by right.
  - rewrite max_all_skip by done. apply IH. intros j Hj. apply Hrec. by right.
Qed.

Lemma min_all_total todo best :
  (forall i, i ∈ todo -> board !! i = Some None ->
             exists v, rec (<[i := Some X]> board) (depth + 1) true = Return v) ->
  exists v, min_all rec todo board depth best = Return v.
Proof.
  revert best. induction todo as [|i rest IH]; intros best Hrec; [by eexists|].
  destruct (is_null (board !! i)) eqn:E.
  - apply is_null_true in E. rewrite min_all_null by done.
    destruct (Hrec i) as [v ->]; [left|done|]. simpl.
    apply IH. intros j Hj. apply Hrec. by right.
  - rewrite min_all_skip by done. apply IH. intros j Hj. apply Hrec. by right.
Qed.

(** The running maximum only grows, the running minimum only shrinks. *)
Lemma max_all_ge todo best v :
  max_all rec todo board depth best = Return v -> Num.le best v.
Proof.
  revert best. induction todo as [|i rest IH]; intros best H.
  - injection H as ->. num_order.
  - destruct (is_null (board !! i)) eqn:E.
    + apply is_null_true in E. rewrite max_all_null in H by done.
      destruct (rec _ _ _) as [s| |]; try done. simpl in H.
      apply IH in H. revert H. num_order.
    + rewrite max_all_skip in H by done. by apply IH.
Qed.

Lemma min_all_le todo best v :
  min_all rec todo board depth best = Return v -> Num.le v best.
Proof.
  revert best. induction todo as [|i rest IH]; intros best H.
  - injection H as ->. num_order.
  - destruct (is_null (board !! i)) eqn:E.
    + apply is_null_true in E. rewrite min_all_null in H by done.
      destruct (rec _ _ _) as [s| |]; try done. simpl in H.
      apply IH in H. revert H. num_order.
    + rewrite min_all_skip in H by done. by apply IH.
Qed.
End exhaustive_facts.

Lemma exhaustive_fuel_unfold fuel (board : Board) depth isMaximizing :
  exhaustive_fuel (S fuel) board depth isMaximizing =
  match evaluate board with
  | Win O => Return (Fin (10 - depth))
  | Win X => Return (Fin (depth - 10))
  | Draw => Return (Fin 0)
  | InProgress =>
      if isMaximizing
      then max_all (exhaustive_fuel fuel) cells board depth NegInf
      else min_all (exhaustive_fuel fuel) cells board depth PosInf
  end.
Proof. reflexivity. Qed.

Lemma exhaustive_fuel_total fuel :
  forall (board : Board) depth isMaximizing,
    (nulls cells board < fuel)%nat ->
    exists v, exhaustive_fuel fuel board depth isMaximizing = Return v.
Proof.
  induction fuel as [|fuel IH]; intros board depth isMax Hn; [lia|].
  rewrite exhaustive_fuel_unfold.
  destruct (evaluate board) as [|[|]|]; try by eexists.
  destruct isMax.
  - apply max_all_total. intros i Hi Hnull. apply IH.
    pose proof (nulls_insert cells board i O NoDup_cells Hi Hnull). lia.
  - apply min_all_total. intros i Hi Hnull. apply IH.
    pose proof (nulls_insert cells board i X NoDup_cells Hi Hnull). lia.
Qed.

Lemma max_NegInf_r a : Num.max a NegInf = a.
Proof. by destruct a. Qed.

Lemma min_PosInf_r b : Num.min b PosInf = b.
Proof. by destruct b. Qed.

(** The pruned search against the exhaustive one, for any window. *)
Lemma pruning_window fuel :
  forall (board : Board) depth isMaximizing alpha beta,
    (nulls cells board < fuel)%nat ->
    Num.lt alpha beta ->
    exists r v,
      minimax_fuel fuel board depth isMaximizing alpha beta = Return (r, board)
      /\ exhaustive_fuel fuel board depth isMaximizing = Return v
      /\ window alpha beta v r.
Proof.
  induction fuel as [|fuel IH]; intros board depth isMax alpha beta Hn Hab; [lia|].
  destruct (exhaustive_fuel_total (S fuel) board depth isMax Hn) as [v Hv].
  rewrite Hv. rewrite exhaustive_fuel_unfold in Hv.
  rewrite minimax_fuel_unfold.
  destruct (evaluate board) as [|[|]|];
    try (injection Hv as <-;
         eexists _, _; split; [done|]; split; [done|]; apply window_exact).
  destruct isMax.
  - destruct (max_loop_rule (minimax_fuel fuel) board depth
                (fun rest best a =>
                   rest ⊆ cells /\ a = Num.max alpha best /\ Num.lt a beta
                   /\ exists vb,
                       max_all (exhaustive_fuel fuel) rest board depth vb = Return v
                       /\ Num.le vb best
                       /\ (Num.lt alpha best -> best = vb))
                (window alpha beta v) beta)
      with (todo := cells) (best := NegInf) (a := alpha)
      as (r & Hr & Hw).
    + intros best a (_ & -> & Hlt & vb & Hall & Hvb & Hex).
      injection Hall as ->. by apply max_end.
    + intros i rest best a (Hsub & Ha & Hlt & vb & Hall & Hvb & Hex) Hi.
      rewrite max_all_skip in Hall by done.
      split; [intros j Hj; apply Hsub; by right|]. eauto 10.
    + intros i rest best a (Hsub & -> & Hlt & vb & Hall & Hvb & Hex) Hi.
      assert (i ∈ cells) as Hic by (apply Hsub; left).
      rewrite max_all_null in Hall by done.
      destruct (IH (<[i := Some O]> board) (depth + 1) false
                  (Num.max alpha best) beta) as (r & vi & Hr & Hvi & Hw).
      { pose proof (nulls_insert cells board i O NoDup_cells Hic Hi). lia. }
      { done. }
      rewrite Hvi in Hall. simpl in Hall.
      exists r. split; [done|].
      destruct (leb_cases beta (Num.max (Num.max alpha best) r))
        as [[E Hle]|[E Hlt']]; rewrite E.
      * apply (max_break alpha beta best vi r v); try done.
        apply max_all_ge in Hall. revert Hall. num_order.
      * destruct (max_continue alpha beta best vb vi r) as (Ea & Hb & Hc);
          try done.
        split; [intros j Hj; apply Hsub; by right|]. eauto 10.
    + split; [done|]. split; [by rewrite max_NegInf_r|]. split; [done|].
      exists NegInf. split; [done|]. split; [done|]. by destruct alpha.
    + by exists r, v.
  - destruct (min_loop_rule (minimax_fuel fuel) board depth
                (fun rest best b =>
                   rest ⊆ cells /\ b = Num.min beta best /\ Num.lt alpha b
                   /\ exists vb,
                       min_all (exhaustive_fuel fuel) rest board depth vb = Return v
                       /\ Num.le best vb
                       /\ (Num.lt best beta -> best = vb))
                (window alpha beta v) alpha)
      with (todo := cells) (best := PosInf) (b := beta)
      as (r & Hr & Hw).
    + intros best b (_ & -> & Hlt & vb & Hall & Hvb & Hex).
      injection Hall as ->. by apply min_end.
    + intros i rest best b (Hsub & Hb & Hlt & vb & Hall & Hvb & Hex) Hi.
      rewrite min_all_skip in Hall by done.
      split; [intros j Hj; apply Hsub; by right|]. eauto 10.
    + intros i rest best b (Hsub & -> & Hlt & vb & Hall & Hvb & Hex) Hi.
      assert (i ∈ cells) as Hic by (apply Hsub; left).
      rewrite min_all_null in Hall by done.
      destruct (IH (<[i := Some X]> board) (depth + 1) true
                  alpha (Num.min beta best)) as (r & vi & Hr & Hvi & Hw).
      { pose proof (nulls_insert cells board i X NoDup_cells Hic Hi). lia. }
      { done. }
      rewrite Hvi in Hall. simpl in Hall.
      exists r. split; [done|].
      destruct (leb_cases (Num.min (Num.min beta best) r) alpha)
        as [[E Hle]|[E Hlt']]; rewrite E.
      * apply (min_break alpha beta best vi r v); try done.
        apply min_all_le in Hall. revert Hall. num_order.
      * destruct (min_continue alpha beta best vb vi r) as (Ea & Hb & Hc);
          try done.
        split; [intros j Hj; apply Hsub; by right|]. eauto 10.
    + split; [done|]. split; [by rewrite min_PosInf_r|]. split; [done|].
      exists PosInf. split; [done|]. split; [done|]. by destruct beta.
    + by exists r, v.
Qed.

Lemma minimax_exhaustive (board : Board) depth isMaximizing :
  exists v, exhaustive board depth isMaximizing = Return v
            /\ minimax board depth isMaximizing NegInf PosInf = Return (v, board).
Proof.
  destruct (pruning_window 10 board depth isMaximizing NegInf PosInf)
    as (r & v & Hr & Hv & Hw); [pose proof (nulls_cells_le board); lia|done|].
  apply window_full in Hw as ->. by exists v.
Qed.

Lemma best_loop_exhaustive (board : Board) todo :
  forall move best,
    exists z, exhaustive_best_loop todo board move best = Return z
              /\ best_loop todo board move best = Return (z, board).
Proof.
  induction todo as [|i rest IH]; intros move best; [by eexists|].
  simpl. destruct (is_null (board !! i)) eqn:E; [|apply IH].
  apply is_null_true in E.
  destruct (minimax_exhaustive (<[i := Some O]> board) 0 false) as (v & -> & ->).
  simpl. rewrite (restore_cell board i O E).
  destruct (Num.ltb best v); apply IH.
Qed.

(** C4: alpha-beta pruning does not change the search result. For every
    board, depth and mover, minimax called with [alpha = -Infinity] and
    [beta = Infinity] returns the value of the exhaustive minimax without
    pruning; and the move of getBestMove on the hard path is the move the
    exhaustive search chooses. *)
Theorem pruning_sound (board : Board) :
  (forall depth isMaximizing,
      exists v,
        exhaustive board depth isMaximizing = Return v
        /\ minimax board depth isMaximizing NegInf PosInf = Return (v, board))
  /\ (exists move,
        exhaustive_best_move board = Return move
        /\ forall rng cursor,
            getBestMove rng board hard cursor
              = Return (number move, board, cursor)).
Proof.
  split; [intros; apply minimax_exhaustive|].
  destruct (best_loop_exhaustive board cells (-1) NegInf) as (z & Hx & Hb).
  exists z. split; [done|]. intros rng cursor.
  rewrite getBestMove_hard. unfold search_move, best_search. by rewrite Hb.
Qed.


(** * Further properties of the engine *)

(** ** availableMoves *)

Lemma availableMoves_from (l : Board) (n : nat) :
  StronglySorted lt (omap id (imap (fun index cell =>
      if is_null (Some cell) then Some (n + index)%nat else None) l))
  /\ Forall (fun i => (n <= i)%nat) (omap id (imap (fun index cell =>
      if is_null (Some cell) then Some (n + index)%nat else None) l)).
Proof.
  revert n. induction l as [|cell l IH]; intros n.
  - split; constructor.
  - rewrite imap_cons.
    rewrite (imap_ext _ (fun index cell0 =>
               if is_null (Some cell0) then Some (S n + index)%nat else None))
      by (intros i x _; simpl; destruct x; [done|f_equal; lia]).
    destruct (IH (S n)) as [Hs Hf].
    assert (Forall (fun i => (n <= i)%nat /\ (n + 0 < i)%nat)
              (omap id (imap (fun index cell0 =>
                 if is_null (Some cell0) then Some (S n + index)%nat else None) l)))
      as Hf'.
    { eapply Forall_impl; [exact Hf|]. simpl. lia. }
    apply Forall_and in Hf' as [Hn Hlt].
    destruct cell as [m|]; simpl; [done|].
    split; constructor; try done. lia.
Qed.

(** X1: availableMoves lists exactly the indices of the Empty cells, in
    strictly increasing order, hence each of them once. *)
Theorem availableMoves_spec (board : Board) :
  (forall i, i ∈ availableMoves board <-> board !! i = Some None)
  /\ StronglySorted lt (availableMoves board)
  /\ NoDup (availableMoves board).
Proof.
  split; [apply elem_of_availableMoves|].
  assert (StronglySorted lt (availableMoves board)) as Hs.
  { apply (availableMoves_from board 0). }
  split; [done|].
  induction Hs as [|i l Hs IH Hf]; constructor; [|done].
  intros Hin. apply (proj1 (Forall_forall _ _) Hf) in Hin. lia.
Qed.

(** ** The random pick *)



(** The double nearest to 1/3 times 3 is [1 - 2^-54] exactly and rounds to
    1: the pick is the second of three moves, not the first. *)
Lemma random_pick_rounds_up :
  (double_third * inject_Z 3 < 1)%Q
  /\ random_pick [6; 7; 8]%nat double_third = number 7.
Proof. split; by vm_compute. Qed.

(** ** Any window *)

(** X3: for every board and every window [alpha < beta], the pruned
    minimax returns, restores the board, and its result relates to the
    exhaustive value [v] as follows: inside the window it is [v]; at or below
    [alpha] it is an upper bound of [v]; at or above [beta] it is a lower
    bound of [v]. *)
Theorem minimax_window (board : Board) depth isMaximizing alpha beta :
  Num.lt alpha beta ->
  exists r v,
    minimax board depth isMaximizing alpha beta = Return (r, board)
    /\ exhaustive board depth isMaximizing = Return v
    /\ (Num.le r alpha -> Num.le v r)
    /\ (Num.le beta r -> Num.le r v)
    /\ (Num.lt alpha r -> Num.lt r beta -> r = v).
Proof.
  intros Hab. apply pruning_window; [|done].
  pose proof (nulls_cells_le board). lia.
Qed.

Lemma minimax_window_witness :
  exists r v,
    minimax example_board 0 false (Fin 0) (Fin 1) = Return (r, example_board)
    /\ exhaustive example_board 0 false = Return v
    /\ (Num.le r (Fin 0) -> Num.le v r)
    /\ (Num.le (Fin 1) r -> Num.le r v)
    /\ (Num.lt (Fin 0) r -> Num.lt r (Fin 1) -> r = v).
Proof.
  apply (minimax_window example_board 0 false (Fin 0) (Fin 1)).
  reflexivity.
Defined.

(** ** The range of scores *)

Section loop_predicates.
Variable rec : Board -> Z -> bool -> Num -> Num -> Run (Num * Board).
Variables (board : Board) (depth : Z).
Variable P : Num -> Prop.
Hypothesis Hnull : exists i, i ∈ cells /\ board !! i = Some None.

(** A property of the scores of all children, kept by [Math.max], holds of
    the result of the maximizing loop when there is a child. *)
Lemma max_loop_pred alpha beta :
  (forall x y, P x -> P y -> P (Num.max x y)) ->
  (forall i a, i ∈ cells -> board !! i = Some None ->
     exists s, rec (<[i := Some O]> board) (depth + 1) false a beta
                 = Return (s, <[i := Some O]> board) /\ P s) ->
  exists r, max_loop rec cells board depth NegInf alpha beta = Return (r, board)
            /\ P r.
Proof.
  intros Hmax Hrec.
  apply (max_loop_rule rec board depth
           (fun rest best _ =>
              rest ⊆ cells
              /\ (P best \/ best = NegInf
                            /\ exists i, i ∈ rest /\ board !! i = Some None))
           P beta).
  - intros best a [_ [Hb|(_ & j & Hj & _)]]; [done|by apply elem_of_nil in Hj].
  - intros i rest best a [Hsub Hb] Hi. split.
    + intros j Hj. apply Hsub. by right.
    + destruct Hb as [Hb|(Hb & j & Hj & Hjn)]; [by left|right].
      split; [done|]. exists j. split; [|done].
      apply elem_of_cons in Hj as [->|Hj]; [|done]. by rewrite Hjn in Hi.
  - intros i rest best a [Hsub Hb] Hi.
    destruct (Hrec i a) as (s & Hs & HP); [apply Hsub; left|done|].
    exists s. split; [done|].
    assert (P (Num.max s best)) as HP'.
    { destruct Hb as [Hb|[-> _]]; [by apply Hmax|by rewrite max_NegInf_r]. }
    destruct (Num.leb _ _); [done|]. split; [|by left].
    intros j Hj. apply Hsub. by right.
  - split; [done|]. right. split; [done|]. done.
Qed.

Lemma min_loop_pred alpha beta :
  (forall x y, P x -> P y -> P (Num.min x y)) ->
  (forall i b, i ∈ cells -> board !! i = Some None ->
     exists s, rec (<[i := Some X]> board) (depth + 1) true alpha b
                 = Return (s, <[i := Some X]> board) /\ P s) ->
  exists r, min_loop rec cells board depth PosInf alpha beta = Return (r, board)
            /\ P r.
Proof.
  intros Hmin Hrec.
  apply (min_loop_rule rec board depth
           (fun rest best _ =>
              rest ⊆ cells
              /\ (P best \/ best = PosInf
                            /\ exists i, i ∈ rest /\ board !! i = Some None))
           P alpha).
  - intros best b [_ [Hb|(_ & j & Hj & _)]]; [done|by apply elem_of_nil in Hj].
  - intros i rest best b [Hsub Hb] Hi. split.
    + intros j Hj. apply Hsub. by right.
    + destruct Hb as [Hb|(Hb & j & Hj & Hjn)]; [by left|right].
      split; [done|]. exists j. split; [|done].
      apply elem_of_cons in Hj as [->|Hj]; [|done]. by rewrite Hjn in Hi.
  - intros i rest best b [Hsub Hb] Hi.
    destruct (Hrec i b) as (s & Hs & HP); [apply Hsub; left|done|].
    exists s. split; [done|].
    assert (P (Num.min s best)) as HP'.
    { destruct Hb as [Hb|[-> _]]; [by apply Hmin|].
      unfold Num.min. by destruct s. }
    destruct (Num.leb _ _); [done|]. split; [|by left].
    intros j Hj. apply Hsub. by right.
  - split; [done|]. right. split; [done|]. done.
Qed.
End loop_predicates.

Lemma in_range_max lo hi x y :
  in_range lo hi x -> in_range lo hi y -> in_range lo hi (Num.max x y).
Proof.
  intros (a & -> & Ha) (b & -> & Hb). unfold Num.max. simpl.
  destruct (a <=? b); by eexists.
Qed.

Lemma in_range_min lo hi x y :
  in_range lo hi x -> in_range lo hi y -> in_range lo hi (Num.min x y).
Proof.
  intros (a & -> & Ha) (b & -> & Hb). unfold Num.min. simpl.
  destruct (a <=? b); by eexists.
Qed.

Lemma score_range_weaken depth r :
  score_range (depth + 1) r -> score_range depth r.
Proof. intros (z & -> & Hz). exists z. split; [done|]. lia. Qed.

Lemma minimax_fuel_range fuel :
  forall (board : Board) depth isMaximizing alpha beta,
    length board = 9%nat ->
    (nulls cells board < fuel)%nat ->
    depth + Z.of_nat (nulls cells board) <= 10 ->
    exists r,
      minimax_fuel fuel board depth isMaximizing alpha beta = Return (r, board)
      /\ score_range depth r
      /\ (evaluate board = InProgress -> score_range (depth + 1) r).
Proof.
  induction fuel as [|fuel IH];
    intros board depth isMax alpha beta Hlen Hn Hd; [lia|].
  rewrite minimax_fuel_unfold.
  destruct (evaluate board) as [|[|]|] eqn:Hev;
    try (eexists; split; [done|]; split; [|done];
         eexists; split; [done|]; lia).
  destruct (evaluate_InProgress_null board Hev) as [i0 Hi0].
  pose proof (null_in_cells board i0 Hlen Hi0) as Hi0c.
  assert (exists r,
             (if isMax
              then max_loop (minimax_fuel fuel) cells board depth NegInf alpha beta
              else min_loop (minimax_fuel fuel) cells board depth PosInf alpha beta)
             = Return (r, board) /\ score_range (depth + 1) r) as (r & Hr & HP).
  { destruct isMax.
    - apply max_loop_pred; [by exists i0|apply in_range_max|].
      intros i a Hic Hi.
      destruct (IH (<[i := Some O]> board) (depth + 1) false a beta)
        as (s & Hs & HP & _); [by rewrite length_insert| | |by exists s].
      all: pose proof (nulls_insert cells board i O NoDup_cells Hic Hi); lia.
    - apply min_loop_pred; [by exists i0|apply in_range_min|].
      intros i b Hic Hi.
      destruct (IH (<[i := Some X]> board) (depth + 1) true alpha b)
        as (s & Hs & HP & _); [by rewrite length_insert| | |by exists s].
      all: pose proof (nulls_insert cells board i X NoDup_cells Hic Hi); lia. }
  exists r. split; [done|]. split; [by apply score_range_weaken|done].
Qed.

(** X4: on a nine-cell board with at most [10 - depth] Empty cells (any
    board when the depth is 0 or 1, as in the calls getBestMove makes), for
    every mover and window, minimax returns a finite score between
    [depth - 10] and [10 - depth]; at depth 0 that is between -10 and 10. *)
Theorem minimax_score_range (board : Board) depth isMaximizing alpha beta :
  length board = 9%nat ->
  depth + Z.of_nat (nulls cells board) <= 10 ->
  exists z,
    minimax board depth isMaximizing alpha beta = Return (Fin z, board)
    /\ depth - 10 <= z <= 10 - depth.
Proof.
  intros Hlen Hd.
  destruct (minimax_fuel_range 10 board depth isMaximizing alpha beta Hlen)
    as (r & Hr & (z & -> & Hz) & _);
    [pose proof (nulls_cells_le board); lia|done|].
  by exists z.
Qed.

Lemma minimax_score_range_witness :
  exists z,
    minimax example_board 1 true NegInf PosInf = Return (Fin z, example_board)
    /\ 1 - 10 <= z <= 10 - 1.
Proof.
  apply (minimax_score_range example_board 1 true NegInf PosInf).
  - reflexivity.
  - by vm_compute.
Defined.

(** ** The move of the search: the first cell of greatest score *)

Lemma scores_fun (board : Board) i s s' :
  scores board i s -> scores board i s' -> s = s'.
Proof. unfold scores. congruence. Qed.

Lemma scores_finite (board : Board) i s :
  length board = 9%nat -> scores board i s -> exists z, s = Fin z.
Proof.
  intros Hlen Hs.
  destruct (minimax_finite (<[i := Some O]> board) 0 false NegInf PosInf)
    as [z Hz]; [by rewrite length_insert|].
  unfold scores in Hs. rewrite Hz in Hs. injection Hs as <-. by exists z.
Qed.

Lemma best_search_argmax (board : Board) :
  length board = 9%nat ->
  (exists i, board !! i = Some None) ->
  exists k s,
    best_search board = Return (Z.of_nat k, board)
    /\ board !! k = Some None
    /\ scores board k s
    /\ forall j sj, board !! j = Some None -> scores board j sj ->
                    Num.le sj s /\ ((j < k)%nat -> Num.lt sj s).
Proof.
  intros Hlen [i0 Hi0].
  pose proof (null_in_cells board i0 Hlen Hi0) as Hi0c.
  apply elem_of_cells in Hi0c.
  set (Inv := fun (rest : list nat) (move : Z) (best : Num) =>
    exists n, (n <= 9)%nat /\ rest = seq n (9 - n)
      /\ ((move = -1 /\ best = NegInf
           /\ forall j, (j < n)%nat -> board !! j <> Some None)
          \/ exists k, move = Z.of_nat k /\ (k < n)%nat
               /\ board !! k = Some None /\ scores board k best
               /\ forall j sj, (j < n)%nat -> board !! j = Some None ->
                    scores board j sj ->
                    Num.le sj best /\ ((j < k)%nat -> Num.lt sj best))).
  assert (forall i rest n, i :: rest = seq n (9 - n) -> (n <= 9)%nat ->
            i = n /\ (S n <= 9)%nat /\ rest = seq (S n) (9 - S n)) as Hseq.
  { intros i rest n E Hn. destruct (9 - n)%nat as [|m] eqn:Em; [done|].
    simpl in E. injection E as -> ->. split; [done|]. split; [lia|].
    f_equal. lia. }
  destruct (best_loop_rule board Inv)
    with (todo := cells) (move := -1) (best := NegInf)
    as (r & best' & Hr & n & Hn & Hrest & HI).
  - intros i rest move best (n & Hn & E & HI) Hi.
    destruct (Hseq i rest n E Hn) as (-> & Hn' & ->).
    exists (S n). split; [done|]. split; [done|].
    destruct HI as [(-> & -> & Hno)|(k & -> & Hk & Hkn & Hks & Hall)].
    + left. do 2 (split; [done|]). intros j Hj.
      destruct (decide (j = n)) as [->|]; [|apply Hno; lia].
      intros E'. by rewrite E' in Hi.
    + right. exists k. do 4 (split; [done || lia|]).
      intros j sj Hj Hjn. destruct (decide (j = n)) as [->|];
        [|apply Hall; [lia|done]].
      by rewrite Hjn in Hi.
  - intros i rest move best score (n & Hn & E & HI) Hi Hs.
    destruct (Hseq i rest n E Hn) as (-> & Hn' & ->).
    fold (scores board n score) in Hs.
    destruct (scores_finite board n score Hlen Hs) as [z ->].
    destruct (leb_cases (Fin z) best) as [[E1 Hle]|[E1 Hlt]];
      unfold Num.ltb; rewrite E1; simpl.
    + exists (S n). split; [done|]. split; [done|].
      destruct HI as [(-> & -> & Hno)|(k & -> & Hk & Hkn & Hks & Hall)];
        [done|].
      right. exists k. do 4 (split; [done || lia|]).
      intros j sj Hj Hjn Hsj. destruct (decide (j = n)) as [->|].
      * rewrite (scores_fun board n sj (Fin z) Hsj Hs). split; [done|lia].
      * apply Hall; [lia|done..].
    + exists (S n). split; [done|]. split; [done|].
      right. exists n. do 4 (split; [done || lia|]).
      intros j sj Hj Hjn Hsj. destruct (decide (j = n)) as [->|].
      * rewrite (scores_fun board n sj (Fin z) Hsj Hs).
        split; [|lia]. clear. num_order.
      * destruct HI as [(-> & -> & Hno)|(k & -> & Hk & Hkn & Hks & Hall)].
        { exfalso. apply (Hno j); [lia|done]. }
        destruct (Hall j sj) as [Hle' _]; [lia|done..|].
        split; [|intros _]; revert Hle' Hlt; clear; num_order.
  - exists 0%nat. split; [lia|]. split; [done|]. left.
    do 2 (split; [done|]). lia.
  - assert (n = 9%nat) as ->.
    { destruct (decide (n = 9%nat)); [done|].
      destruct (9 - n)%nat eqn:E; [lia|done]. }
    destruct HI as [(-> & -> & Hno)|(k & -> & Hk & Hkn & Hks & Hall)].
    + exfalso. by apply (Hno i0).
    + exists k, best'. do 3 (split; [done|]).
      intros j sj Hjn Hsj. apply Hall; [|done..].
      apply lookup_lt_Some in Hjn. lia.
Qed.

(** X5: on a nine-cell board with an Empty cell, getBestMove at difficulty
    hard returns the Empty cell whose minimax score is greatest, and among
    those the one of lowest index: every Empty cell scores at most as much,
    and every Empty cell before it scores strictly less. *)
Theorem getBestMove_hard_argmax rng (board : Board) cursor :
  length board = 9%nat ->
  (exists i, board !! i = Some None) ->
  exists k s,
    getBestMove rng board hard cursor = Return (number (Z.of_nat k), board, cursor)
    /\ board !! k = Some None
    /\ scores board k s
    /\ forall j sj, board !! j = Some None -> scores board j sj ->
                    Num.le sj s /\ ((j < k)%nat -> Num.lt sj s).
Proof.
  intros Hlen Hnull.
  destruct (best_search_argmax board Hlen Hnull) as (k & s & Hb & Hrest).
  exists k, s. split; [|done].
  rewrite getBestMove_hard. unfold search_move. by rewrite Hb.
Qed.

Lemma getBestMove_hard_argmax_witness :
  exists k s,
    getBestMove rng0 example_board hard 0
      = Return (number (Z.of_nat k), example_board, 0%nat)
    /\ example_board !! k = Some None
    /\ scores example_board k s
    /\ forall j sj, example_board !! j = Some None -> scores example_board j sj ->
                    Num.le sj s /\ ((j < k)%nat -> Num.lt sj s).
Proof.
  apply (getBestMove_hard_argmax rng0 example_board 0).
  - reflexivity.
  - by exists 2%nat.
Defined.

(** ** Lines and moves *)

Lemma checkWinner_from_complete (board : Board) combinations line m :
  line ∈ combinations -> completes board line m ->
  checkWinner_from combinations board <> None.
Proof.
  induction combinations as [|[[a b] c] rest IH]; intros Hin Hl;
    [by apply elem_of_nil in Hin|].
  simpl. destruct (truthy _ && _ && _) eqn:E.
  - apply line_test_true in E as (m' & Ha & _). by rewrite Ha.
  - apply elem_of_cons in Hin as [->|Hin]; [|by apply IH].
    assert (exists m, completes board (a, b, c) m) as H by eauto.
    apply line_test_true in H. congruence.
Qed.

Lemma checkWinner_None (board : Board) :
  checkWinner board = None <-> no_line board.
Proof.
  split.
  - intros H line m Hin Hl.
    by apply (checkWinner_from_complete board WINNING_COMBINATIONS line m).
  - intros H. apply checkWinner_from_None. intros l m Hin. by apply H.
Qed.

(** The mark of every completed line, when they all agree, is the winner. *)
Lemma checkWinner_unanimous (board : Board) line m :
  line ∈ WINNING_COMBINATIONS -> completes board line m ->
  (forall l m', l ∈ WINNING_COMBINATIONS -> completes board l m' -> m' = m) ->
  checkWinner board = Some m.
Proof.
  intros Hin Hl Hall.
  destruct (checkWinner board) as [m'|] eqn:E.
  - apply checkWinner_from_Some in E as (l & Hlin & Hlc).
    by rewrite (Hall l m' Hlin Hlc).
  - by apply (checkWinner_from_complete board _ line m) in E.
Qed.

Lemma completes_insert (board : Board) i p line m :
  board !! i = Some None ->
  completes (<[i := Some p]> board) line m ->
  completes board line m \/ m = p.
Proof.
  intros Hi. destruct line as [[a b] c]. intros (Ha & Hb & Hc).
  assert (forall k, <[i := Some p]> board !! k = Some (Some m) ->
                    board !! k = Some (Some m) \/ m = p) as Hk.
  { intros k Hk. destruct (decide (i = k)) as [<-|Hne].
    - rewrite list_lookup_insert_eq in Hk by (by eapply lookup_lt_Some).
      right. congruence.
    - rewrite list_lookup_insert_ne in Hk by done. by left. }
  destruct (Hk a Ha) as [?|?]; [|by right].
  destruct (Hk b Hb) as [?|?]; [|by right].
  destruct (Hk c Hc) as [?|?]; [|by right].
  by left.
Qed.

Lemma completes_insert_keep (board : Board) i p line m :
  board !! i = Some None ->
  completes board line m ->
  completes (<[i := Some p]> board) line m.
Proof.
  intros Hi. destruct line as [[a b] c]. intros (Ha & Hb & Hc).
  assert (forall k, board !! k = Some (Some m) ->
                    <[i := Some p]> board !! k = Some (Some m)) as Hk.
  { intros k Hk. rewrite list_lookup_insert_ne; [done|]. congruence. }
  split; [|split]; by apply Hk.
Qed.

Lemma evaluate_InProgress_no_line (board : Board) :
  evaluate board = InProgress -> no_line board.
Proof.
  intros Hev. apply checkWinner_None. unfold evaluate in Hev.
  by destruct (checkWinner board).
Qed.

Lemma evaluate_Win (board : Board) m :
  evaluate board = Win m <-> checkWinner board = Some m.
Proof.
  unfold evaluate. destruct (checkWinner board) as [w|].
  - split; congruence.
  - destruct (checkDraw board); split; congruence.
Qed.

Lemma checkWinner_move (board : Board) i p m :
  no_line board -> board !! i = Some None ->
  checkWinner (<[i := Some p]> board) = Some m -> m = p.
Proof.
  intros Hno Hi Hw.
  apply checkWinner_from_Some in Hw as (line & Hin & Hl).
  apply completes_insert in Hl as [Hl|Hl]; [|done..].
  by apply Hno in Hl.
Qed.

Lemma evaluate_move (board : Board) i p m :
  evaluate board = InProgress ->
  board !! i = Some None ->
  evaluate (<[i := Some p]> board) = Win m ->
  m = p.
Proof.
  intros Hev Hi Hw. apply evaluate_Win in Hw.
  eapply checkWinner_move; [|done..]. by apply evaluate_InProgress_no_line.
Qed.

(** X6: a move onto an Empty cell of a board in progress can only win for
    the mover: if the board after writing [p] evaluates to [Win m], then
    [m] is [p]. *)
Theorem move_wins_for_mover (board : Board) i p m :
  evaluate board = InProgress ->
  board !! i = Some None ->
  evaluate (<[i := Some p]> board) = Win m ->
  m = p.
Proof.
  intros Hev Hi Hw. apply evaluate_Win in Hw.
  apply checkWinner_from_Some in Hw as (line & Hin & Hl).
  apply completes_insert in Hl as [Hl|Hl]; [|done..].
  by apply (evaluate_InProgress_no_line board Hev) in Hl.
Qed.

Lemma move_wins_for_mover_witness :
  evaluate (<[5%nat := Some O]> example_board) = Win O /\ O = O.
Proof.
  split; [reflexivity|].
  apply (move_wins_for_mover example_board 5 O O); reflexivity.
Defined.

(** ** Scores of the candidate moves *)

Lemma exhaustive_fuel_range fuel (board : Board) depth isMaximizing :
  length board = 9%nat ->
  (nulls cells board < fuel)%nat ->
  depth + Z.of_nat (nulls cells board) <= 10 ->
  exists v,
    exhaustive_fuel fuel board depth isMaximizing = Return v
    /\ score_range depth v
    /\ (evaluate board = InProgress -> score_range (depth + 1) v).
Proof.
  intros Hlen Hn Hd.
  destruct (pruning_window fuel board depth isMaximizing NegInf PosInf)
    as (r & v & Hr & Hv & Hw); [done..|].
  apply window_full in Hw as ->.
  destruct (minimax_fuel_range fuel board depth isMaximizing NegInf PosInf)
    as (r & Hr' & Hrange); [done..|].
  rewrite Hr in Hr'. injection Hr' as <-. by exists v.
Qed.

Section min_all_facts.
Variable rec : Board -> Z -> bool -> Run Num.
Variables (board : Board) (depth : Z).

Lemma min_all_child_le todo best v i vi :
  min_all rec todo board depth best = Return v ->
  i ∈ todo -> board !! i = Some None ->
  rec (<[i := Some X]> board) (depth + 1) true = Return vi ->
  Num.le v vi.
Proof.
  revert best. induction todo as [|k rest IH]; intros best Hv Hin Hi Hvi;
    [by apply elem_of_nil in Hin|].
  destruct (is_null (board !! k)) eqn:E.
  - apply is_null_true in E. rewrite min_all_null in Hv by done.
    destruct (rec (<[k := Some X]> board) (depth + 1) true) as [s| |] eqn:Es;
      try done.
    simpl in Hv. apply elem_of_cons in Hin as [->|Hin].
    + rewrite Es in Hvi. injection Hvi as ->.
      apply min_all_le in Hv. revert Hv. clear. num_order.
    + by eapply IH.
  - rewrite min_all_skip in Hv by done.
    apply elem_of_cons in Hin as [->|Hin]; [by rewrite Hi in E|].
    by eapply IH.
Qed.

Lemma min_all_lower todo best v L :
  (forall i vi, i ∈ todo -> board !! i = Some None ->
     rec (<[i := Some X]> board) (depth + 1) true = Return vi -> Num.le L vi) ->
  Num.le L best ->
  min_all rec todo board depth best = Return v ->
  Num.le L v.
Proof.
  revert best. induction todo as [|k rest IH]; intros best Hall Hb Hv.
  - by injection Hv as <-.
  - destruct (is_null (board !! k)) eqn:E.
    + apply is_null_true in E. rewrite min_all_null in Hv by done.
      destruct (rec (<[k := Some X]> board) (depth + 1) true) as [s| |] eqn:Es;
        try done.
      simpl in Hv. eapply IH; [| |exact Hv].
      * intros i vi Hin. apply Hall. by right.
      * assert (Num.le L s) as Hs by (eapply Hall; [left|done..]).
        revert Hs Hb. clear. num_order.
    + rewrite min_all_skip in Hv by done. eapply IH; [|done..].
      intros i vi Hin. apply Hall. by right.
Qed.
End min_all_facts.

Lemma scores_exhaustive (board : Board) i v :
  exhaustive (<[i := Some O]> board) 0 false = Return v -> scores board i v.
Proof.
  intros Hv. unfold scores.
  destruct (minimax_exhaustive (<[i := Some O]> board) 0 false) as (v' & Hx & Hm).
  congruence.
Qed.

Lemma scores_total (board : Board) i :
  exists v, exhaustive (<[i := Some O]> board) 0 false = Return v
            /\ scores board i v.
Proof.
  destruct (minimax_exhaustive (<[i := Some O]> board) 0 false) as (v & Hx & Hm).
  by exists v.
Qed.

Lemma nulls_insert_lt (board : Board) i p :
  length board = 9%nat -> board !! i = Some None ->
  (nulls cells (<[i := Some p]> board) < nulls cells board)%nat.
Proof.
  intros Hlen Hi.
  pose proof (nulls_insert cells board i p NoDup_cells
                (null_in_cells board i Hlen Hi) Hi). lia.
Qed.

(** The score of a cell that wins at once is 10. *)
Lemma scores_win (board : Board) i :
  wins_at board O i -> scores board i (Fin 10).
Proof.
  intros [Hi Hw]. unfold scores, minimax.
  rewrite minimax_fuel_unfold, (proj2 (evaluate_Win _ O) Hw). done.
Qed.

(** The score of any other Empty cell of a board in progress is between
    -9 and 9. *)
Lemma scores_no_win (board : Board) i s :
  length board = 9%nat ->
  evaluate board = InProgress ->
  board !! i = Some None ->
  ~ wins_at board O i ->
  scores board i s ->
  in_range (-9) 9 s.
Proof.
  intros Hlen Hev Hi Hnw Hs. unfold scores, minimax in Hs.
  assert (checkWinner (<[i := Some O]> board) = None) as Hnone.
  { destruct (checkWinner (<[i := Some O]> board)) as [m|] eqn:E; [|done].
    pose proof (checkWinner_move board i O m
                  (evaluate_InProgress_no_line board Hev) Hi E) as ->.
    exfalso. by apply Hnw. }
  destruct (minimax_fuel_range 10 (<[i := Some O]> board) 0 false NegInf PosInf)
    as (r & Hr & _ & Hrange).
  { by rewrite length_insert. }
  { pose proof (nulls_cells_le (<[i := Some O]> board)). lia. }
  { pose proof (nulls_cells_le (<[i := Some O]> board)). lia. }
  rewrite Hr in Hs. injection Hs as <-.
  destruct (evaluate (<[i := Some O]> board)) as [|m| ] eqn:E.
  - by apply Hrange.
  - apply evaluate_Win in E. congruence.
  - rewrite minimax_fuel_unfold, E in Hr. injection Hr as <-.
    exists 0. split; [done|lia].
Qed.

(** X7: on a nine-cell board in progress where MarkB can complete a line
    at once, getBestMove at difficulty hard returns the lowest such cell,
    and the board with ['O'] written there evaluates to Win(MarkB). *)
Theorem getBestMove_hard_takes_win rng (board : Board) cursor :
  length board = 9%nat ->
  evaluate board = InProgress ->
  (exists i, wins_at board O i) ->
  exists k,
    getBestMove rng board hard cursor = Return (number (Z.of_nat k), board, cursor)
    /\ wins_at board O k
    /\ (forall j, (j < k)%nat -> ~ wins_at board O j)
    /\ evaluate (ai_write board (number (Z.of_nat k))) = Win O.
Proof.
  intros Hlen Hev [w Hw].
  destruct (best_search_argmax board Hlen) as (k & s & Hb & Hkn & Hs & Hall).
  { exists w. apply Hw. }
  assert (getBestMove rng board hard cursor
            = Return (number (Z.of_nat k), board, cursor)) as Hk.
  { rewrite getBestMove_hard. unfold search_move. by rewrite Hb. }
  assert (wins_at board O k) as Hwk.
  { destruct (decide (checkWinner (<[k := Some O]> board) = Some O)) as [E|E];
      [by split|].
    exfalso.
    destruct (scores_no_win board k s Hlen Hev Hkn) as (z & -> & Hz);
      [by intros [_ ?]|done|].
    destruct (Hall w (Fin 10)) as [Hle _]; [apply Hw|by apply scores_win|].
    revert Hle. unfold Num.le. simpl. rewrite Z.leb_le. lia. }
  exists k. split; [done|]. split; [done|]. split.
  - intros j Hj Hwj.
    destruct (Hall j (Fin 10)) as [_ Hlt]; [apply Hwj|by apply scores_win|].
    rewrite (scores_fun board k s (Fin 10) Hs (scores_win board k Hwk)) in Hlt.
    specialize (Hlt Hj). by vm_compute in Hlt.
  - simpl. destruct (Z.leb_spec 0 (Z.of_nat k)); [|lia].
    rewrite Nat2Z.id. apply evaluate_Win. apply Hwk.
Qed.

Lemma getBestMove_hard_takes_win_witness :
  exists k,
    getBestMove rng0 example_board hard 0
      = Return (number (Z.of_nat k), example_board, 0%nat)
    /\ wins_at example_board O k
    /\ (forall j, (j < k)%nat -> ~ wins_at example_board O j)
    /\ evaluate (ai_write example_board (number (Z.of_nat k))) = Win O.
Proof.
  apply (getBestMove_hard_takes_win rng0 example_board 0).
  - reflexivity.
  - reflexivity.
  - exists 5%nat. split; reflexivity.
Defined.

(** ** Blocking the only threat *)

Section block.
Variable board : Board.
Variable c : nat.
Hypothesis Hlen : length board = 9%nat.
Hypothesis Hev : evaluate board = InProgress.
Hypothesis Hno_win : forall i, ~ wins_at board O i.
Hypothesis Hthreat : wins_at board X c.
Hypothesis Honly : forall j, wins_at board X j -> j = c.

Lemma block_no_winner i :
  board !! i = Some None -> checkWinner (<[i := Some O]> board) = None.
Proof.
  intros Hi. destruct (checkWinner (<[i := Some O]> board)) as [m|] eqn:E; [|done].
  pose proof (checkWinner_move board i O m
                (evaluate_InProgress_no_line board Hev) Hi E) as ->.
  exfalso. by apply (Hno_win i).
Qed.

(** Not blocking loses at once: the score is -9. *)
Lemma block_other_scores j :
  board !! j = Some None -> j <> c -> scores board j (Fin (-9)).
Proof.
  intros Hj Hne. destruct Hthreat as [Hc Hwc].
  pose proof (block_no_winner j Hj) as Hnone.
  assert (<[j := Some O]> board !! c = Some None) as Hc'.
  { by rewrite list_lookup_insert_ne. }
  assert (evaluate (<[j := Some O]> board) = InProgress) as Hevj.
  { unfold evaluate, checkDraw. rewrite Hnone.
    destruct (forallb _ _) eqn:F; [|done].
    apply forallb_not_null in F.
    pose proof (full_not_null _ c F) as Hn. by rewrite Hc' in Hn. }
  assert (evaluate (<[c := Some X]> (<[j := Some O]> board)) = Win X) as Hevjc.
  { apply evaluate_Win.
    apply checkWinner_from_Some in Hwc as (line & Hin & Hl).
    apply (checkWinner_unanimous _ line); [done| |].
    - rewrite list_insert_insert_ne by done.
      apply completes_insert_keep; [|done].
      by rewrite list_lookup_insert_ne.
    - intros l m' Hlin Hlc.
      apply completes_insert in Hlc as [Hlc|Hlc]; [|done..].
      by apply (proj1 (checkWinner_None _) Hnone) in Hlc. }
  destruct (scores_total board j) as (v & Hx & Hs).
  unfold exhaustive in Hx. rewrite exhaustive_fuel_unfold, Hevj in Hx.
  assert (Num.le v (Fin (-9))) as Hle.
  { apply (min_all_child_le (exhaustive_fuel 9) (<[j := Some O]> board) 0
             cells PosInf v c (Fin (-9)) Hx).
    - apply (null_in_cells board c Hlen Hc).
    - done.
    - rewrite exhaustive_fuel_unfold, Hevjc. done. }
  assert (in_range (-9) 9 v) as (z & -> & Hz).
  { apply (scores_no_win board j v Hlen Hev Hj); [|done].
    intros [_ Hw]. congruence. }
  assert (z = -9) as ->; [|done].
  revert Hle. unfold Num.le. simpl. rewrite Z.leb_le. lia.
Qed.

(** After the block MarkA has no win on its next move. *)
Lemma block_child_not_lost k :
  <[c := Some O]> board !! k = Some None ->
  evaluate (<[k := Some X]> (<[c := Some O]> board)) = Draw
  \/ evaluate (<[k := Some X]> (<[c := Some O]> board)) = InProgress.
Proof.
  intros Hk. destruct Hthreat as [Hc Hwc].
  assert (k <> c) as Hne.
  { intros ->. rewrite list_lookup_insert_eq in Hk by (by eapply lookup_lt_Some).
    done. }
  assert (board !! k = Some None) as Hk'.
  { by rewrite list_lookup_insert_ne in Hk. }
  pose proof (block_no_winner c Hc) as Hnone.
  destruct (evaluate (<[k := Some X]> (<[c := Some O]> board))) as [|m|] eqn:E;
    [by right| |by left].
  exfalso. apply evaluate_Win in E.
  pose proof (checkWinner_move _ k X m (proj1 (checkWinner_None _) Hnone) Hk E)
    as ->.
  apply checkWinner_from_Some in E as (line & Hin & Hl).
  rewrite list_insert_insert_ne in Hl by done.
  apply completes_insert in Hl as [Hl|Hl];
    [|done|by rewrite list_lookup_insert_ne].
  apply Hne, Honly. split; [done|].
  apply (checkWinner_unanimous _ line); [done..|].
  intros l m' Hlin Hlc.
  apply completes_insert in Hlc as [Hlc|Hlc]; [|done..].
  by apply (evaluate_InProgress_no_line board Hev) in Hlc.
Qed.

(** Blocking does not lose at once: the score is at least -8. *)
Lemma block_scores s :
  scores board c s -> in_range (-8) 9 s.
Proof.
  intros Hs. destruct Hthreat as [Hc Hwc].
  pose proof (block_no_winner c Hc) as Hnone.
  destruct (scores_no_win board c s Hlen Hev Hc (Hno_win c) Hs) as (z & -> & Hz).
  exists z. split; [done|]. split; [|lia].
  destruct (scores_total board c) as (v & Hx & Hs').
  pose proof (scores_fun board c (Fin z) v Hs Hs') as Ev. subst v. clear Hs'.
  unfold exhaustive in Hx. rewrite exhaustive_fuel_unfold in Hx.
  destruct (evaluate (<[c := Some O]> board)) as [|m|] eqn:E.
  - assert (Num.le (Fin (-8)) (Fin z)) as Hle.
    { apply (min_all_lower (exhaustive_fuel 9) (<[c := Some O]> board) 0
               cells PosInf (Fin z) (Fin (-8))); [|done|exact Hx].
      intros k vk Hkc Hk Hvk.
      assert (length (<[k := Some X]> (<[c := Some O]> board)) = 9%nat) as Hlen'.
      { by rewrite !length_insert. }
      assert (nulls cells (<[k := Some X]> (<[c := Some O]> board)) < 8)%nat
        as Hnulls.
      { pose proof (nulls_insert_lt board c O Hlen Hc).
        pose proof (nulls_insert_lt (<[c := Some O]> board) k X
                      ltac:(by rewrite length_insert) Hk).
        pose proof (nulls_cells_le board). lia. }
      destruct (exhaustive_fuel_range 9 (<[k := Some X]> (<[c := Some O]> board))
                  (0 + 1) true Hlen') as (v' & Hv' & _ & Hrange); [lia..|].
      rewrite Hv' in Hvk. injection Hvk as <-.
      destruct (block_child_not_lost k Hk) as [Ed|Ep].
      - rewrite exhaustive_fuel_unfold, Ed in Hv'. by injection Hv' as <-.
      - destruct (Hrange Ep) as (y & -> & Hy).
        unfold Num.le. simpl. rewrite Z.leb_le. lia. }
    revert Hle. unfold Num.le. simpl. rewrite Z.leb_le. lia.
  - apply evaluate_Win in E. congruence.
  - injection Hx as <-. lia.
Qed.

Lemma block_best_search :
  best_search board = Return (Z.of_nat c, board).
Proof.
  destruct Hthreat as [Hc Hwc].
  destruct (best_search_argmax board Hlen) as (k & s & Hb & Hk & Hs & Hall);
    [by exists c|].
  destruct (decide (k = c)) as [->|Hne]; [done|]. exfalso.
  pose proof (scores_fun board k s _ Hs (block_other_scores k Hk Hne)) as ->.
  destruct (scores_total board c) as (v & _ & Hv).
  destruct (block_scores v Hv) as (z & -> & Hz).
  destruct (Hall c (Fin z) Hc Hv) as [Hle _].
  revert Hle. unfold Num.le. simpl. rewrite Z.leb_le. lia.
Qed.
End block.

(** X8: on a nine-cell board in progress where MarkB cannot complete a
    line at once and MarkA can complete one at exactly one cell [c],
    getBestMove at difficulty hard returns [c]. *)
Theorem getBestMove_hard_blocks rng (board : Board) cursor c :
  length board = 9%nat ->
  evaluate board = InProgress ->
  (forall i, ~ wins_at board O i) ->
  wins_at board X c ->
  (forall j, wins_at board X j -> j = c) ->
  getBestMove rng board hard cursor = Return (number (Z.of_nat c), board, cursor).
Proof.
  intros Hlen Hev Hno Hc Honly.
  rewrite getBestMove_hard. unfold search_move.
  by rewrite (block_best_search board c).
Qed.

Lemma getBestMove_hard_blocks_witness :
  getBestMove rng0 threat_board hard 0 = Return (number 2, threat_board, 0%nat).
Proof.
  apply (getBestMove_hard_blocks rng0 threat_board 0 2).
  - reflexivity.
  - reflexivity.
  - intros i [Hi Hw]. do 9 (destruct i as [|i]; [by vm_compute in Hi, Hw|]).
    done.
  - split; reflexivity.
  - intros j [Hj Hw]. do 9 (destruct j as [|j]; [by vm_compute in Hj, Hw|]).
    done.
Defined.

(** * Properties of the component *)

(** ** One move *)

Lemma count_mark_insert p q (board : Board) i :
  board !! i = Some None ->
  count_mark p (<[i := Some q]> board)
  = (count_mark p board + if decide (p = q) then 1 else 0)%nat.
Proof.
  unfold count_mark. revert i. induction board as [|cell l IH]; intros i Hi;
    [done|].
  destruct i as [|i]; simpl in *.
  - injection Hi as ->. rewrite !filter_cons.
    rewrite (decide_False (P := None = Some p)) by done.
    destruct (decide (p = q)) as [->|Hne].
    + rewrite decide_True by done. simpl. lia.
    + rewrite decide_False by congruence. lia.
  - rewrite !filter_cons. specialize (IH i Hi).
    destruct (decide (cell = Some p)); simpl; rewrite IH; lia.
Qed.

Lemma consistent_initial : consistent (replicate 9 None) X false None.
Proof.
  split; [done|]. split; [done|]. split; [by split|].
  split; [done|]. split; [by left|].
  intros line m Hin Hl. exfalso. revert line m Hin Hl.
  apply checkWinner_None. reflexivity.
Qed.

Lemma consistent_running (board : Board) p w :
  consistent board p false w -> evaluate board = InProgress.
Proof.
  intros (_ & _ & Hwon & _).
  destruct (decide (evaluate board = InProgress)) as [|Hne]; [done|].
  by apply Hwon in Hne.
Qed.

(** A move of the player to move onto an Empty cell keeps the state
    variables consistent, whichever way the new board is concluded. *)
Lemma consistent_move (board : Board) p w i :
  consistent board p false w ->
  board !! i = Some None ->
  match evaluate (<[i := Some p]> board) with
  | Win m => m = p /\ consistent (<[i := Some p]> board) p true (Some m)
  | Draw => consistent (<[i := Some p]> board) p true w
  | InProgress => consistent (<[i := Some p]> board) (other p) false w
  end.
Proof.
  intros (Hlen & Hw & Hwon & Hcount & _ & _) Hi.
  assert (evaluate board = InProgress) as Hev.
  { destruct (decide (evaluate board = InProgress)); [done|].
    by apply Hwon in n. }
  pose proof (evaluate_InProgress_no_line board Hev) as Hno.
  assert (w = None) as ->.
  { rewrite Hw. by apply checkWinner_None. }
  pose proof (count_mark_insert X p board i Hi) as HX.
  pose proof (count_mark_insert O p board i Hi) as HO.
  specialize (Hcount eq_refl).
  assert (count_mark X (<[i := Some p]> board)
            = count_mark O (<[i := Some p]> board)
          \/ count_mark X (<[i := Some p]> board)
            = S (count_mark O (<[i := Some p]> board))) as Hdisj.
  { destruct p; repeat case_decide; try done; lia. }
  destruct (evaluate (<[i := Some p]> board)) as [|m|] eqn:E.
  - assert (checkWinner (<[i := Some p]> board) = None) as Hnone.
    { destruct (checkWinner (<[i := Some p]> board)) as [m|] eqn:E'; [|done].
      apply evaluate_Win in E'. congruence. }
    split; [by rewrite length_insert|]. split; [done|].
    split; [split; [done|by rewrite E]|].
    split; [|split; [done|]].
    + intros _. destruct p; unfold other; repeat case_decide; try done; lia.
    + intros line m Hin Hl. by apply (proj1 (checkWinner_None _) Hnone) in Hl.
  - pose proof (evaluate_move board i p m Hev Hi E) as ->.
    split; [done|].
    split; [by rewrite length_insert|].
    split; [symmetry; by apply evaluate_Win|].
    split; [split; [by rewrite E|done]|].
    split; [done|]. split; [done|].
    intros line m Hin Hl.
    apply completes_insert in Hl as [Hl | ->]; [|done..].
    by apply Hno in Hl.
  - assert (checkWinner (<[i := Some p]> board) = None) as Hnone.
    { destruct (checkWinner (<[i := Some p]> board)) as [m|] eqn:E'; [|done].
      apply evaluate_Win in E'. congruence. }
    split; [by rewrite length_insert|]. split; [done|].
    split; [split; [by rewrite E|done]|].
    split; [done|]. split; [done|].
    intros line m Hin Hl. by apply (proj1 (checkWinner_None _) Hnone) in Hl.
Qed.

(** What [conclude] sets, by the outcome of the new board. *)
Lemma conclude_spec (newBoard : Board) on_win next (s : Game.State) :
  let r := Game.conclude newBoard on_win next (Game.setBoard newBoard s) in
  Game.board r.1 = newBoard
  /\ Game.gameMode r.1 = Game.gameMode s
  /\ Game.difficulty r.1 = Game.difficulty s
  /\ Game.isAiThinking r.1 = Game.isAiThinking s
  /\ match evaluate newBoard with
     | Win m => Game.gameWon r.1 = true /\ Game.winner r.1 = Some m
                /\ Game.currentPlayer r.1 = Game.currentPlayer s
                /\ r.2 = Some (on_win m)
     | Draw => Game.gameWon r.1 = true /\ Game.winner r.1 = Game.winner s
               /\ Game.currentPlayer r.1 = Game.currentPlayer s
               /\ r.2 = Some "It's a draw!"
     | InProgress => Game.gameWon r.1 = Game.gameWon s
                     /\ Game.winner r.1 = Game.winner s
                     /\ Game.currentPlayer r.1 = next
                     /\ r.2 = None
     end.
Proof.
  unfold Game.conclude, evaluate.
  destruct (checkWinner newBoard) as [m|]; [done|].
  by destruct (checkDraw newBoard).
Qed.


(** ** The handlers *)

(** A press that passes the guards of handleCellPress is on an Empty cell
    of a running game. *)
Lemma press_guard (s : Game.State) index :
  length (Game.board s) = 9%nat -> (index < 9)%nat ->
  truthy (Game.board s !! index) || Game.gameWon s || Game.isAiThinking s
    = false ->
  Game.board s !! index = Some None /\ Game.gameWon s = false
  /\ Game.isAiThinking s = false.
Proof.
  intros Hlen Hi Hg.
  apply orb_false_elim in Hg as [Hg Ht]. apply orb_false_elim in Hg as [Hc Hw].
  split; [|done].
  destruct (lookup_lt_is_Some_2 (Game.board s) index) as [cell Hcell]; [lia|].
  rewrite Hcell in *. by destruct cell.
Qed.

Lemma press_consistent (s : Game.State) index :
  state_consistent s -> (index < 9)%nat ->
  state_consistent (Game.handleCellPress s index).1.
Proof.
  intros Hs Hi. unfold Game.handleCellPress.
  destruct (truthy _ || _ || _) eqn:Hg; [done|].
  destruct (_ && _); [done|].
  destruct (press_guard s index) as (Hnull & Hwon & _); [apply Hs|done..|].
  unfold state_consistent in Hs. rewrite Hwon in Hs.
  pose proof (consistent_move _ _ _ index Hs Hnull) as Hm.
  destruct (conclude_spec (<[index := Some (Game.currentPlayer s)]> (Game.board s))
              (fun w => match Game.gameMode s with
                        | Game.pvp => "Player " +:+ Game.mark_text w +:+ " wins!"
                        | Game.pva => match w with
                                      | X => "You win!"
                                      | O => "AI wins!"
                                      end
                        end)
              (match Game.currentPlayer s with X => O | O => X end) s)
    as (Hb & _ & _ & _ & Hr).
  unfold state_consistent. rewrite Hb.
  destruct (evaluate _) as [|m|].
  - destruct Hr as (-> & -> & -> & _). by rewrite Hwon.
  - destruct Hr as (-> & -> & -> & _). apply Hm.
  - destruct Hr as (-> & -> & -> & _). done.
Qed.

Lemma reset_consistent (s : Game.State) : state_consistent (Game.resetGame s).
Proof. apply consistent_initial. Qed.

(** The callback of the AI's timer on a nine-cell board with an Empty
    cell: ['O'] is written into an Empty cell and the new board concluded. *)
Lemma makeAiMove_timeout_spec (rng : nat -> double)
    (currentBoard : Board) d (s : Game.State) cursor :
  length currentBoard = 9%nat ->
  (exists i, currentBoard !! i = Some None) ->
  (forall n, (0 <= rng n)%Q /\ (rng n < 1)%Q) ->
  exists i s' alert cursor',
    Game.makeAiMove_timeout rng currentBoard d s cursor
      = Return (s', alert, cursor')
    /\ currentBoard !! i = Some None
    /\ Game.board s' = <[i := Some O]> currentBoard
    /\ Game.isAiThinking s' = false
    /\ Game.gameMode s' = Game.gameMode s
    /\ Game.difficulty s' = Game.difficulty s
    /\ match evaluate (<[i := Some O]> currentBoard) with
       | Win m => Game.gameWon s' = true /\ Game.winner s' = Some m
                  /\ Game.currentPlayer s' = Game.currentPlayer s
                  /\ alert = Some (match m with
                                   | O => "AI wins!"
                                   | X => "You win!"
                                   end)
       | Draw => Game.gameWon s' = true /\ Game.winner s' = Game.winner s
                 /\ Game.currentPlayer s' = Game.currentPlayer s
                 /\ alert = Some "It's a draw!"
       | InProgress => Game.gameWon s' = Game.gameWon s
                       /\ Game.winner s' = Game.winner s
                       /\ Game.currentPlayer s' = X
                       /\ alert = None
       end.
Proof.
  intros Hlen Hnull Hrng.
  destruct (getBestMove_null rng currentBoard d cursor Hlen Hnull Hrng)
    as (i & c' & Hg & Hi).
  unfold Game.makeAiMove_timeout. rewrite Hg. simpl.
  destruct (Z.leb_spec 0 (Z.of_nat i)); [|lia]. rewrite Nat2Z.id.
  pose proof (conclude_spec (<[i := Some O]> currentBoard)
                (fun w => match w with X => "You win!" | O => "AI wins!" end)
                X s) as Hc.
  simpl in Hc.
  destruct (Game.conclude _ _ _ _) as [r a]. simpl in Hc.
  destruct Hc as (Hb & Hm & Hd & _ & Hr).
  exists i, (Game.setIsAiThinking false r), a, c'.
  split; [done|]. split; [done|]. split; [done|]. split; [done|].
  split; [done|]. split; [done|].
  destruct (evaluate _) as [|[|]|]; done.
Qed.

Lemma ai_consistent (rng : nat -> double)
    (s : Game.State) cursor s' alert cursor' :
  (forall n, (0 <= rng n)%Q /\ (rng n < 1)%Q) ->
  state_consistent s -> Game.aiTurn s = true ->
  Game.makeAiMove_timeout rng (Game.board s) (Game.difficulty s)
    (Game.makeAiMove s) cursor = Return (s', alert, cursor') ->
  state_consistent s'.
Proof.
  intros Hrng Hs Hturn Hrun. unfold Game.aiTurn in Hturn.
  apply andb_prop in Hturn as [Hturn _].
  apply andb_prop in Hturn as [Hturn Hwon].
  apply andb_prop in Hturn as [_ Hp].
  apply bool_decide_eq_true in Hp. apply negb_true_iff in Hwon.
  unfold state_consistent in Hs. rewrite Hwon, Hp in Hs.
  pose proof (consistent_running _ _ _ Hs) as Hev.
  destruct (makeAiMove_timeout_spec rng (Game.board s) (Game.difficulty s)
              (Game.makeAiMove s) cursor)
    as (i & s2 & a2 & c2 & Hrun' & Hi & Hb & _ & _ & _ & Hr);
    [apply Hs|by apply evaluate_InProgress_null|done|].
  rewrite Hrun in Hrun'. injection Hrun' as <- <- <-.
  pose proof (consistent_move _ _ _ i Hs Hi) as Hm.
  unfold state_consistent. rewrite Hb.
  destruct (evaluate (<[i := Some O]> (Game.board s))) as [|m|].
  - destruct Hr as (-> & -> & -> & _). simpl. by rewrite Hwon.
  - destruct Hr as (-> & -> & -> & _). simpl. rewrite Hp. apply Hm.
  - destruct Hr as (-> & -> & -> & _). simpl. by rewrite Hp.
Qed.

Lemma reachable_consistent (rng : nat -> double) (s : Game.State) :
  (forall n, (0 <= rng n)%Q /\ (rng n < 1)%Q) ->
  Game.reachable rng s -> state_consistent s.
Proof.
  intros Hrng. induction 1.
  - apply consistent_initial.
  - by apply press_consistent.
  - apply reset_consistent.
  - apply consistent_initial.
  - apply consistent_initial.
  - by eapply ai_consistent.
Qed.

(** ** The states of a game *)

(** X9: in every state of a run (draws in [0, 1)), the board has nine
    cells, [winner] is what checkWinner finds on the board, and [gameWon] is
    raised exactly when the board is a win or a draw. *)
Theorem game_flags_agree (rng : nat -> double) (s : Game.State) :
  (forall n, (0 <= rng n)%Q /\ (rng n < 1)%Q) ->
  Game.reachable rng s ->
  length (Game.board s) = 9%nat
  /\ Game.winner s = checkWinner (Game.board s)
  /\ (Game.gameWon s = true <-> evaluate (Game.board s) <> InProgress).
Proof.
  intros Hrng Hs.
  destruct (reachable_consistent rng s Hrng Hs) as (H1 & H2 & H3 & _).
  done.
Qed.

Lemma rng0_unit n : (0 <= rng0 n)%Q /\ (rng0 n < 1)%Q.
Proof. split; by vm_compute. Qed.

Lemma game_flags_agree_witness :
  length (Game.board (Game.handleCellPress Game.initial 4).1) = 9%nat
  /\ Game.winner (Game.handleCellPress Game.initial 4).1
     = checkWinner (Game.board (Game.handleCellPress Game.initial 4).1)
  /\ (Game.gameWon (Game.handleCellPress Game.initial 4).1 = true
      <-> evaluate (Game.board (Game.handleCellPress Game.initial 4).1)
          <> InProgress).
Proof.
  apply (game_flags_agree rng0 (Game.handleCellPress Game.initial 4).1).
  - apply rng0_unit.
  - apply Game.reach_press; [apply Game.reach_initial|reflexivity|lia].
Defined.

(** X10: in every state of a run, MarkA has as many marks on the board as
    MarkB or one more; while the game is running it has as many when it is
    to move and one more when MarkB is. *)
Theorem game_marks_alternate (rng : nat -> double) (s : Game.State) :
  (forall n, (0 <= rng n)%Q /\ (rng n < 1)%Q) ->
  Game.reachable rng s ->
  (count_mark X (Game.board s) = count_mark O (Game.board s)
   \/ count_mark X (Game.board s) = S (count_mark O (Game.board s)))
  /\ (Game.gameWon s = false ->
      count_mark X (Game.board s)
      = (count_mark O (Game.board s)
         + if decide (Game.currentPlayer s = O) then 1 else 0)%nat).
Proof.
  intros Hrng Hs.
  destruct (reachable_consistent rng s Hrng Hs) as (_ & _ & _ & H4 & H5 & _).
  done.
Qed.

Lemma game_marks_alternate_witness :
  (count_mark X (Game.board (Game.handleCellPress Game.initial 4).1)
   = count_mark O (Game.board (Game.handleCellPress Game.initial 4).1)
   \/ count_mark X (Game.board (Game.handleCellPress Game.initial 4).1)
      = S (count_mark O (Game.board (Game.handleCellPress Game.initial 4).1)))
  /\ (Game.gameWon (Game.handleCellPress Game.initial 4).1 = false ->
      count_mark X (Game.board (Game.handleCellPress Game.initial 4).1)
      = (count_mark O (Game.board (Game.handleCellPress Game.initial 4).1)
         + if decide (Game.currentPlayer (Game.handleCellPress Game.initial 4).1
                      = O)
           then 1 else 0)%nat).
Proof.
  apply (game_marks_alternate rng0 (Game.handleCellPress Game.initial 4).1).
  - apply rng0_unit.
  - apply Game.reach_press; [apply Game.reach_initial|reflexivity|lia].
Defined.

(** X11: in every state of a run, every completed line on the board holds
    the mark of [winner]: the two players never both have a line. *)
Theorem game_single_winner (rng : nat -> double) (s : Game.State) line m :
  (forall n, (0 <= rng n)%Q /\ (rng n < 1)%Q) ->
  Game.reachable rng s ->
  line ∈ WINNING_COMBINATIONS ->
  completes (Game.board s) line m ->
  Game.winner s = Some m.
Proof.
  intros Hrng Hs.
  destruct (reachable_consistent rng s Hrng Hs) as (_ & _ & _ & _ & _ & H6).
  apply H6.
Qed.

Lemma won_state_reachable : Game.reachable rng0 won_state.
Proof.
  pose proof (Game.reach_mode rng0 _ Game.pvp (Game.reach_initial rng0) eq_refl)
    as R0.
  pose proof (Game.reach_press rng0 _ 0 R0 eq_refl ltac:(lia)) as R1.
  pose proof (Game.reach_press rng0 _ 3 R1 eq_refl ltac:(lia)) as R2.
  pose proof (Game.reach_press rng0 _ 1 R2 eq_refl ltac:(lia)) as R3.
  pose proof (Game.reach_press rng0 _ 4 R3 eq_refl ltac:(lia)) as R4.
  exact (Game.reach_press rng0 _ 2 R4 eq_refl ltac:(lia)).
Qed.

Lemma game_single_winner_witness : Game.winner won_state = Some X.
Proof.
  apply (game_single_winner rng0 won_state (0, 1, 2)%nat X).
  - apply rng0_unit.
  - apply won_state_reachable.
  - left.
  - by vm_compute.
Defined.

(** ** What a handler writes *)

Lemma getBestMove_full_move rng (board : Board) d cursor :
  Forall (fun cell => cell <> None) board ->
  exists move cursor',
    getBestMove rng board d cursor = Return (move, board, cursor')
    /\ ai_write board move = board.
Proof.
  intros Hfull. unfold getBestMove, Math_random.
  rewrite availableMoves_full, random_pick_nil, !search_move_full by done.
  destruct d; try destruct (Qlt_le_dec _ _); by eexists _, _.
Qed.

(** X12: no handler overwrites a mark. A press leaves every marked cell as
    it is, and so does the AI's move with respect to the board it was
    started on (nine cells, draws in [0, 1)), at every difficulty. *)
Theorem marks_stay (rng : nat -> double) (s : Game.State) j m :
  Game.board s !! j = Some (Some m) ->
  (forall index,
      Game.board (Game.handleCellPress s index).1 !! j = Some (Some m))
  /\ (forall d s0 cursor s' alert cursor',
        length (Game.board s) = 9%nat ->
        (forall n, (0 <= rng n)%Q /\ (rng n < 1)%Q) ->
        Game.makeAiMove_timeout rng (Game.board s) d s0 cursor
          = Return (s', alert, cursor') ->
        Game.board s' !! j = Some (Some m)).
Proof.
  intros Hj. split.
  - intros index. unfold Game.handleCellPress.
    destruct (truthy _ || _ || _) eqn:Hg; [done|].
    destruct (_ && _); [done|].
    apply orb_false_elim in Hg as [Hg _]. apply orb_false_elim in Hg as [Hc _].
    destruct (conclude_spec (<[index := Some (Game.currentPlayer s)]> (Game.board s))
                (fun w => match Game.gameMode s with
                          | Game.pvp => "Player " +:+ Game.mark_text w +:+ " wins!"
                          | Game.pva => match w with
                                        | X => "You win!"
                                        | O => "AI wins!"
                                        end
                          end)
                (match Game.currentPlayer s with X => O | O => X end) s)
      as (-> & _).
    rewrite list_lookup_insert_ne; [done|].
    intros ->. by rewrite Hj in Hc.
  - intros d s0 cursor s' alert cursor' Hlen Hrng Hrun.
    destruct (decide (Forall (fun cell : Player => cell <> None) (Game.board s)))
      as [Hfull|Hnf].
    + destruct (getBestMove_full_move rng (Game.board s) d cursor Hfull)
        as (move & c' & Hg & Hw).
      unfold Game.makeAiMove_timeout in Hrun. rewrite Hg in Hrun. simpl in Hrun.
      rewrite Hw in Hrun.
      pose proof (conclude_spec (Game.board s)
                    (fun w => match w with X => "You win!" | O => "AI wins!" end)
                    X s0) as Hc.
      simpl in Hc. destruct (Game.conclude _ _ _ _) as [r a]. simpl in Hc.
      destruct Hc as (Hb & _). injection Hrun as <- _ _. simpl. by rewrite Hb.
    + apply not_Forall_Exists in Hnf; [|apply _].
      apply Exists_exists in Hnf as (cell & Hin & Hc).
      apply list_elem_of_lookup in Hin as [i0 Hi0].
      assert (cell = None) as -> by (destruct cell; [by destruct Hc|done]).
      destruct (makeAiMove_timeout_spec rng (Game.board s) d s0 cursor Hlen)
        as (i & s2 & a2 & c2 & Hrun' & Hi & Hb & _); [by exists i0|done|].
      rewrite Hrun in Hrun'. injection Hrun' as -> _ _.
      rewrite Hb, list_lookup_insert_ne; [done|]. intros ->. congruence.
Qed.

Lemma marks_stay_witness :
  (forall index,
      Game.board (Game.handleCellPress
                    (Game.setBoard example_board Game.initial) index).1 !! 0%nat
      = Some (Some X))
  /\ (forall d s0 cursor s' alert cursor',
        length example_board = 9%nat ->
        (forall n, (0 <= rng0 n)%Q /\ (rng0 n < 1)%Q) ->
        Game.makeAiMove_timeout rng0 example_board d s0 cursor
          = Return (s', alert, cursor') ->
        Game.board s' !! 0%nat = Some (Some X)).
Proof.
  apply (marks_stay rng0 (Game.setBoard example_board Game.initial) 0 X).
  reflexivity.
Defined.

(** X13: the AI's move on a nine-cell board in progress (draws in [0, 1),
    any difficulty) returns, writes ['O'] into exactly one Empty cell of the
    board it was started on, and lowers [isAiThinking]; if the new board is
    won it is won by ['O'] and the alert is 'AI wins!' (never 'You win!');
    if it is a draw the alert says so; otherwise there is no alert and the
    turn passes to ['X']. *)
Theorem makeAiMove_writes_O (rng : nat -> double)
    (currentBoard : Board) d (s : Game.State) cursor :
  length currentBoard = 9%nat ->
  evaluate currentBoard = InProgress ->
  (forall n, (0 <= rng n)%Q /\ (rng n < 1)%Q) ->
  exists i s' alert cursor',
    Game.makeAiMove_timeout rng currentBoard d s cursor
      = Return (s', alert, cursor')
    /\ currentBoard !! i = Some None
    /\ Game.board s' = <[i := Some O]> currentBoard
    /\ Game.isAiThinking s' = false
    /\ alert <> Some "You win!"
    /\ match evaluate (Game.board s') with
       | Win m => m = O /\ alert = Some "AI wins!"
                  /\ Game.gameWon s' = true /\ Game.winner s' = Some O
       | Draw => alert = Some "It's a draw!" /\ Game.gameWon s' = true
       | InProgress => alert = None /\ Game.currentPlayer s' = X
                       /\ Game.gameWon s' = Game.gameWon s
       end.
Proof.
  intros Hlen Hev Hrng.
  destruct (makeAiMove_timeout_spec rng currentBoard d s cursor Hlen)
    as (i & s' & a & c' & Hrun & Hi & Hb & Ht & _ & _ & Hr);
    [by apply evaluate_InProgress_null|done|].
  exists i, s', a, c'. do 4 (split; [done|]). rewrite Hb.
  destruct (evaluate (<[i := Some O]> currentBoard)) as [|m|] eqn:E.
  - destruct Hr as (H1 & _ & H3 & ->). done.
  - pose proof (evaluate_move currentBoard i O m Hev Hi E) as ->.
    destruct Hr as (H1 & H2 & _ & ->). done.
  - destruct Hr as (H1 & _ & _ & ->). done.
Qed.

Lemma makeAiMove_writes_O_witness :
  exists i s' alert cursor',
    Game.makeAiMove_timeout rng0 example_board easy Game.initial 0
      = Return (s', alert, cursor')
    /\ example_board !! i = Some None
    /\ Game.board s' = <[i := Some O]> example_board
    /\ Game.isAiThinking s' = false
    /\ alert <> Some "You win!"
    /\ match evaluate (Game.board s') with
       | Win m => m = O /\ alert = Some "AI wins!"
                  /\ Game.gameWon s' = true /\ Game.winner s' = Some O
       | Draw => alert = Some "It's a draw!" /\ Game.gameWon s' = true
       | InProgress => alert = None /\ Game.currentPlayer s' = X
                       /\ Game.gameWon s' = Game.gameWon Game.initial
       end.
Proof.
  apply (makeAiMove_writes_O rng0 example_board easy Game.initial 0).
  - reflexivity.
  - reflexivity.
  - apply rng0_unit.
Defined.

(** X14: in the mode against the AI, a press on a nine-cell board in
    progress never raises the alert 'AI wins!': an alert of a press is
    'You win!' or the draw. *)
Theorem press_alert_pva (s : Game.State) index s' message :
  length (Game.board s) = 9%nat -> (index < 9)%nat ->
  evaluate (Game.board s) = InProgress ->
  Game.gameMode s = Game.pva ->
  Game.handleCellPress s index = (s', Some message) ->
  (message = "You win!" /\ evaluate (Game.board s') = Win X)
  \/ (message = "It's a draw!" /\ evaluate (Game.board s') = Draw).
Proof.
  intros Hlen Hi Hev Hmode. unfold Game.handleCellPress.
  destruct (truthy _ || _ || _) eqn:Hg; [done|].
  rewrite Hmode. rewrite bool_decide_eq_true_2 by done. simpl.
  destruct (bool_decide (Game.currentPlayer s = O)) eqn:Hp; [done|].
  apply bool_decide_eq_false in Hp.
  assert (Game.currentPlayer s = X) as HX by (by destruct (Game.currentPlayer s)).
  rewrite HX.
  destruct (press_guard s index Hlen Hi Hg) as (Hnull & _ & _).
  pose proof (conclude_spec (<[index := Some X]> (Game.board s))
                (fun w => match w with X => "You win!" | O => "AI wins!" end)
                O s) as Hc.
  simpl in Hc. intros Hrun. rewrite Hrun in Hc. simpl in Hc.
  destruct Hc as (Hb & _ & _ & _ & Hr). rewrite Hb.
  destruct (evaluate (<[index := Some X]> (Game.board s))) as [|m|] eqn:E.
  - by destruct Hr as (_ & _ & _ & ?).
  - pose proof (evaluate_move _ index X m Hev Hnull E) as ->.
    destruct Hr as (_ & _ & _ & [= <-]). by left.
  - destruct Hr as (_ & _ & _ & [= <-]). by right.
Qed.

Lemma press_alert_pva_witness :
  ("You win!" = "You win!"
   /\ evaluate (Game.board (Game.handleCellPress winning_state 2).1) = Win X)
  \/ ("You win!" = "It's a draw!"
      /\ evaluate (Game.board (Game.handleCellPress winning_state 2).1) = Draw).
Proof.
  apply (press_alert_pva winning_state 2
           (Game.handleCellPress winning_state 2).1 "You win!");
    try reflexivity.
  lia.
Defined.

(** ** The two-player component *)

Lemma two_player_press_game (s : Game.State) index :
  Game.gameMode s = Game.pvp ->
  Game.isAiThinking s = false ->
  TwoPlayer.handleCellPress (TwoPlayer.of_game s) index
    = (TwoPlayer.of_game (Game.handleCellPress s index).1,
       (Game.handleCellPress s index).2)
  /\ Game.gameMode (Game.handleCellPress s index).1 = Game.pvp
  /\ Game.isAiThinking (Game.handleCellPress s index).1 = false
  /\ Game.difficulty (Game.handleCellPress s index).1 = Game.difficulty s.
Proof.
  intros Hmode Ht. split; [|split; [|split]].
  all: unfold Game.handleCellPress, TwoPlayer.handleCellPress, Game.conclude.
  all: destruct s as [b p won w mode d t]; simpl in *; subst mode t.
  all: rewrite orb_false_r; simpl.
  all: destruct (truthy (b !! index) || won); [done|].
  all: destruct (checkWinner (<[index := Some p]> b)) as [m|]; [done|].
  all: by destruct (checkDraw (<[index := Some p]> b)).
Qed.

(** X15: in two-player mode with no AI move pending, handleCellPress of the
    AI component does to the board, the player to move, [gameWon] and
    [winner] what handleCellPress of the two-player component does, with the
    same alert, and leaves the other state variables as they are; resetGame
    agrees likewise. *)
Theorem pvp_is_two_player (s : Game.State) index :
  Game.gameMode s = Game.pvp ->
  Game.isAiThinking s = false ->
  TwoPlayer.handleCellPress (TwoPlayer.of_game s) index
    = (TwoPlayer.of_game (Game.handleCellPress s index).1,
       (Game.handleCellPress s index).2)
  /\ Game.gameMode (Game.handleCellPress s index).1 = Game.pvp
  /\ Game.isAiThinking (Game.handleCellPress s index).1 = false
  /\ Game.difficulty (Game.handleCellPress s index).1 = Game.difficulty s
  /\ TwoPlayer.resetGame (TwoPlayer.of_game s)
     = TwoPlayer.of_game (Game.resetGame s).
Proof.
  intros Hmode Ht.
  destruct (two_player_press_game s index Hmode Ht) as (H1 & H2 & H3 & H4).
  done.
Qed.

Lemma pvp_is_two_player_witness :
  TwoPlayer.handleCellPress
    (TwoPlayer.of_game (Game.setGameMode Game.pvp Game.initial)) 4
    = (TwoPlayer.of_game
         (Game.handleCellPress (Game.setGameMode Game.pvp Game.initial) 4).1,
       (Game.handleCellPress (Game.setGameMode Game.pvp Game.initial) 4).2)
  /\ Game.gameMode
       (Game.handleCellPress (Game.setGameMode Game.pvp Game.initial) 4).1
     = Game.pvp
  /\ Game.isAiThinking
       (Game.handleCellPress (Game.setGameMode Game.pvp Game.initial) 4).1
     = false
  /\ Game.difficulty
       (Game.handleCellPress (Game.setGameMode Game.pvp Game.initial) 4).1
     = Game.difficulty (Game.setGameMode Game.pvp Game.initial)
  /\ TwoPlayer.resetGame
       (TwoPlayer.of_game (Game.setGameMode Game.pvp Game.initial))
     = TwoPlayer.of_game
         (Game.resetGame (Game.setGameMode Game.pvp Game.initial)).
Proof.
  apply (pvp_is_two_player (Game.setGameMode Game.pvp Game.initial) 4);
    reflexivity.
Defined.

Lemma two_player_press (s : TwoPlayer.State) index :
  (TwoPlayer.handleCellPress s index).1
  = TwoPlayer.of_game (Game.handleCellPress (to_game s) index).1.
Proof.
  destruct s as [b p won w].
  destruct (two_player_press_game (to_game (TwoPlayer.mkState b p won w)) index)
    as (H & _); [done..|].
  change (TwoPlayer.of_game (to_game (TwoPlayer.mkState b p won w)))
    with (TwoPlayer.mkState b p won w) in H.
  by rewrite H.
Qed.

(** X16: in every state of the two-player component the board has nine
    cells, [winner] is what checkWinner finds, [gameWon] is raised exactly on
    a won or drawn board, the marks of the two players alternate (['X'] has as
    many as ['O'] or one more), and every completed line is the winner's. *)
Theorem two_player_consistent (s : TwoPlayer.State) :
  TwoPlayer.reachable s ->
  length (TwoPlayer.board s) = 9%nat
  /\ TwoPlayer.winner s = checkWinner (TwoPlayer.board s)
  /\ (TwoPlayer.gameWon s = true <-> evaluate (TwoPlayer.board s) <> InProgress)
  /\ (count_mark X (TwoPlayer.board s) = count_mark O (TwoPlayer.board s)
      \/ count_mark X (TwoPlayer.board s) = S (count_mark O (TwoPlayer.board s)))
  /\ (forall line m, line ∈ WINNING_COMBINATIONS ->
        completes (TwoPlayer.board s) line m -> TwoPlayer.winner s = Some m).
Proof.
  intros Hs.
  assert (consistent (TwoPlayer.board s) (TwoPlayer.currentPlayer s)
            (TwoPlayer.gameWon s) (TwoPlayer.winner s)) as (H1 & H2 & H3 & _ & H5 & H6);
    [|done].
  induction Hs as [|s index Hs IH Hi|s Hs IH].
  - apply consistent_initial.
  - rewrite two_player_press.
    apply (press_consistent (to_game s) index); [|done].
    destruct s. apply IH.
  - apply consistent_initial.
Qed.

Lemma two_player_consistent_witness :
  length (TwoPlayer.board (TwoPlayer.handleCellPress TwoPlayer.initial 0).1)
    = 9%nat
  /\ TwoPlayer.winner (TwoPlayer.handleCellPress TwoPlayer.initial 0).1
     = checkWinner (TwoPlayer.board (TwoPlayer.handleCellPress TwoPlayer.initial 0).1)
  /\ (TwoPlayer.gameWon (TwoPlayer.handleCellPress TwoPlayer.initial 0).1 = true
      <-> evaluate (TwoPlayer.board (TwoPlayer.handleCellPress TwoPlayer.initial 0).1)
          <> InProgress)
  /\ (count_mark X (TwoPlayer.board (TwoPlayer.handleCellPress TwoPlayer.initial 0).1)
      = count_mark O (TwoPlayer.board (TwoPlayer.handleCellPress TwoPlayer.initial 0).1)
      \/ count_mark X (TwoPlayer.board (TwoPlayer.handleCellPress TwoPlayer.initial 0).1)
         = S (count_mark O
                (TwoPlayer.board (TwoPlayer.handleCellPress TwoPlayer.initial 0).1)))
  /\ (forall line m, line ∈ WINNING_COMBINATIONS ->
        completes (TwoPlayer.board (TwoPlayer.handleCellPress TwoPlayer.initial 0).1)
          line m ->
        TwoPlayer.winner (TwoPlayer.handleCellPress TwoPlayer.initial 0).1 = Some m).
Proof.
  apply (two_player_consistent (TwoPlayer.handleCellPress TwoPlayer.initial 0).1).
  apply TwoPlayer.reach_press; [apply TwoPlayer.reach_initial|lia].
Defined.

(** ** Difficulty hard in the component *)

Lemma makeAiMove_timeout_move rng (currentBoard : Board) d (s : Game.State)
    cursor s' alert cursor' :
  Game.makeAiMove_timeout rng currentBoard d s cursor = Return (s', alert, cursor') ->
  exists aiMove board',
    getBestMove rng currentBoard d cursor = Return (aiMove, board', cursor')
    /\ Game.board s' = ai_write currentBoard aiMove
    /\ Game.gameMode s' = Game.gameMode s
    /\ Game.difficulty s' = Game.difficulty s.
Proof.
  unfold Game.makeAiMove_timeout.
  destruct (getBestMove rng currentBoard d cursor) as [[[aiMove b] c]| |];
    try done.
  simpl.
  pose proof (conclude_spec (ai_write currentBoard aiMove)
                (fun w => match w with X => "You win!" | O => "AI wins!" end)
                X s) as Hc.
  simpl in Hc. destruct (Game.conclude _ _ _ _) as [r a]. simpl in Hc.
  destruct Hc as (Hb & Hm & Hd & _).
  intros [= <- _ <-]. by exists aiMove, b.
Qed.

(** In the mode against the AI at difficulty hard, the board of every
    state is a board of the game of C1. *)
Lemma hard_position (rng : nat -> double) (s : Game.State) :
  (forall n, (0 <= rng n)%Q /\ (rng n < 1)%Q) ->
  Game.reachable rng s ->
  Game.gameMode s = Game.pva -> Game.difficulty s = hard ->
  exists turn, position rng turn (Game.board s)
               /\ (Game.gameWon s = false -> turn = Game.currentPlayer s).
Proof.
  intros Hrng Hs.
  induction Hs as [|s index Hs IH Hturn Hi|s Hs IH Hturn|s mode Hs IH Hturn
                   |s diff Hs IH Hturn|s cursor s' alert cursor' Hs IH Hturn Hrun];
    intros Hmode Hdiff.
  - done.
  - pose proof (reachable_consistent rng s Hrng Hs) as Hcon.
    revert Hmode Hdiff. unfold Game.handleCellPress.
    destruct (truthy _ || _ || _) eqn:Hg; [done|].
    destruct (bool_decide (Game.gameMode s = Game.pva)
              && bool_decide (Game.currentPlayer s = O)) eqn:Hg2; [done|].
    destruct (conclude_spec (<[index := Some (Game.currentPlayer s)]> (Game.board s))
                (fun w => match Game.gameMode s with
                          | Game.pvp => "Player " +:+ Game.mark_text w +:+ " wins!"
                          | Game.pva => match w with
                                        | X => "You win!"
                                        | O => "AI wins!"
                                        end
                          end)
                (match Game.currentPlayer s with X => O | O => X end) s)
      as (Hb & Hm & Hd & _ & Hr).
    rewrite Hb, Hm, Hd. intros Hmode Hdiff.
    destruct (IH Hmode Hdiff) as (turn & Hpos & Hturn').
    destruct (press_guard s index) as (Hnull & Hwon & _); [apply Hcon|done..|].
    rewrite Hmode in Hg2. rewrite bool_decide_eq_true_2 in Hg2 by done.
    simpl in Hg2. apply bool_decide_eq_false in Hg2.
    assert (Game.currentPlayer s = X) as HX by (by destruct (Game.currentPlayer s)).
    rewrite (Hturn' Hwon), HX in Hpos. rewrite HX in *.
    unfold state_consistent in Hcon. rewrite Hwon in Hcon.
    exists O. split.
    + apply (position_human rng _ index Hpos); [|done].
      by apply (consistent_running _ _ _ Hcon).
    + destruct (evaluate _) as [|m|].
      * by destruct Hr as (_ & _ & -> & _).
      * destruct Hr as (-> & _). done.
      * destruct Hr as (-> & _). done.
  - exists X. split; [apply position_start|done].
  - exists X. split; [apply position_start|done].
  - exists X. split; [apply position_start|done].
  - pose proof (reachable_consistent rng s Hrng Hs) as Hcon.
    pose proof (ai_consistent rng s cursor s' alert cursor' Hrng Hcon Hturn Hrun)
      as Hcon'.
    destruct (makeAiMove_timeout_move _ _ _ _ _ _ _ _ Hrun)
      as (aiMove & b' & Hg & Hb & Hm & Hd).
    simpl in Hm, Hd. rewrite Hm in Hmode. rewrite Hd in Hdiff.
    destruct (IH Hmode Hdiff) as (turn & Hpos & Hturn').
    unfold Game.aiTurn in Hturn.
    apply andb_prop in Hturn as [Hturn _].
    apply andb_prop in Hturn as [Hturn Hwon].
    apply andb_prop in Hturn as [_ Hp].
    apply bool_decide_eq_true in Hp. apply negb_true_iff in Hwon.
    rewrite (Hturn' Hwon), Hp in Hpos.
    unfold state_consistent in Hcon. rewrite Hwon in Hcon.
    rewrite Hdiff in Hg.
    exists X. split.
    + rewrite Hb. apply (position_ai rng _ cursor aiMove b' cursor' Hpos); [|done].
      by apply (consistent_running _ _ _ Hcon).
    + intros Hwon'.
      destruct (makeAiMove_timeout_spec rng (Game.board s) (Game.difficulty s)
                  (Game.makeAiMove s) cursor)
        as (i & s2 & a2 & c2 & Hrun' & _ & Hb2 & _ & _ & _ & Hr);
        [apply Hcon
        |apply evaluate_InProgress_null; by apply (consistent_running _ _ _ Hcon)
        |done|].
      rewrite Hrun in Hrun'. injection Hrun' as <- <- <-.
      destruct (evaluate _) as [|m|].
      * by destruct Hr as (_ & _ & -> & _).
      * destruct Hr as (Hr & _). congruence.
      * destruct Hr as (Hr & _). congruence.
Qed.

(** X17: in the mode against the AI at difficulty hard, in every state of
    a run the winner is not ['X']: the human never wins. *)
Theorem hard_never_loses_game (rng : nat -> double) (s : Game.State) :
  (forall n, (0 <= rng n)%Q /\ (rng n < 1)%Q) ->
  Game.reachable rng s ->
  Game.gameMode s = Game.pva -> Game.difficulty s = hard ->
  Game.winner s <> Some X /\ evaluate (Game.board s) <> Win X.
Proof.
  intros Hrng Hs Hmode Hdiff.
  destruct (hard_position rng s Hrng Hs Hmode Hdiff) as (turn & Hpos & _).
  apply position_safe in Hpos as [_ [n Hn]].
  rewrite safe_unfold in Hn.
  assert (evaluate (Game.board s) <> Win X) as Hev.
  { intros E. by rewrite E in Hn. }
  split; [|done].
  destruct (reachable_consistent rng s Hrng Hs) as (_ & -> & _).
  intros E. by apply evaluate_Win in E.
Qed.

Lemma hard_never_loses_game_witness :
  Game.winner
    (Game.handleCellPress
       (Game.resetGame (Game.setDifficulty hard Game.initial)) 4).1 <> Some X
  /\ evaluate
       (Game.board
          (Game.handleCellPress
             (Game.resetGame (Game.setDifficulty hard Game.initial)) 4).1)
     <> Win X.
Proof.
  apply (hard_never_loses_game rng0).
  - apply rng0_unit.
  - apply Game.reach_press; [|reflexivity|lia].
    apply Game.reach_difficulty; [apply Game.reach_initial|reflexivity].
  - reflexivity.
  - reflexivity.
Defined.
